(** * Chinese Color Editor plugin: the text-to-decoration pipeline of [main.ts]

    A shallow embedding of [computeDecorations], [isChineseChar],
    [getAccentedColoredPinyin] and [addToneMark], with the string primitives
    of JavaScript they rely on, followed by the properties of the pipeline.

    JavaScript strings are sequences of UTF-16 code units; every index,
    [slice], [indexOf] and regular expression without the [u] flag works on
    code units, and so does this development. *)

From Stdlib Require Import ZArith List Bool Lia Sorted.
From Stdlib.Strings Require Import String Ascii Byte.
Import ListNotations.
Local Open Scope Z_scope.

(** ** JavaScript strings *)

Module JS.

(** A string is the list of its UTF-16 code units. *)
Definition jsstring : Type := list Z.

(** Code units are 16-bit values. *)
Definition is_code_unit (c : Z) : bool := (0 <=? c) && (c <=? 0xFFFF).

Definition well_formed (s : jsstring) : bool := forallb is_code_unit s.

(** *** String literals

    The literals of this file are written as text and turned into code
    units: the bytes of the literal are decoded as UTF-8 into code points,
    and each code point is encoded in UTF-16. *)

Definition cont (b : Z) : Z := Z.land b 0x3F.

Fixpoint utf8_decode (bs : list Z) : list Z :=
  match bs with
  | [] => []
  | b0 :: r0 =>
    if b0 <? 0x80 then b0 :: utf8_decode r0
    else match r0 with
    | [] => [b0]
    | b1 :: r1 =>
      if b0 <? 0xE0 then
        Z.lor (Z.shiftl (Z.land b0 0x1F) 6) (cont b1) :: utf8_decode r1
      else match r1 with
      | [] => [b0; b1]
      | b2 :: r2 =>
        if b0 <? 0xF0 then
          Z.lor (Z.shiftl (Z.land b0 0x0F) 12)
                (Z.lor (Z.shiftl (cont b1) 6) (cont b2)) :: utf8_decode r2
        else match r2 with
        | [] => [b0; b1; b2]
        | b3 :: r3 =>
          Z.lor (Z.shiftl (Z.land b0 0x07) 18)
                (Z.lor (Z.shiftl (cont b1) 12)
                       (Z.lor (Z.shiftl (cont b2) 6) (cont b3)))
            :: utf8_decode r3
        end
      end
    end
  end.

(** UTF-16 encoding of one code point: itself up to U+FFFF, a surrogate
    pair above. *)
Definition utf16_encode (cp : Z) : jsstring :=
  if cp <=? 0xFFFF then [cp]
  else [0xD800 + Z.shiftr (cp - 0x10000) 10;
        0xDC00 + Z.land (cp - 0x10000) 0x3FF].

Definition bytes_of (s : string) : list Z :=
  map (fun b => Z.of_N (Byte.to_N b)) (list_byte_of_string s).

Definition js (s : string) : jsstring :=
  flat_map utf16_encode (utf8_decode (bytes_of s)).

(** *** Indexing and code points *)

Definition length (s : jsstring) : Z := Z.of_nat (List.length s).

(** [s[pos]]: the one-unit string at [pos], [undefined] ([None]) outside
    the string. *)
Definition at_index (s : jsstring) (pos : Z) : option jsstring :=
  if (0 <=? pos) && (pos <? length s)
  then option_map (fun c => [c]) (nth_error s (Z.to_nat pos))
  else None.

Definition is_leading_surrogate (c : Z) : bool := (0xD800 <=? c) && (c <=? 0xDBFF).
Definition is_trailing_surrogate (c : Z) : bool := (0xDC00 <=? c) && (c <=? 0xDFFF).

Definition pair_code_point (lead trail : Z) : Z :=
  (lead - 0xD800) * 0x400 + (trail - 0xDC00) + 0x10000.

(** [s.codePointAt(0)]: [undefined] on the empty string; the code point of
    a surrogate pair when the string starts with one; the first code unit
    otherwise. *)
Definition codePointAt0 (s : jsstring) : option Z :=
  match s with
  | [] => None
  | first :: rest =>
    if is_leading_surrogate first then
      match rest with
      | second :: _ =>
        if is_trailing_surrogate second
        then Some (pair_code_point first second)
        else Some first
      | [] => Some first
      end
    else Some first
  end.

(** *** Searching *)

Fixpoint starts_with (v s : jsstring) : bool :=
  match v, s with
  | [], _ => true
  | _ :: _, [] => false
  | x :: v', y :: s' => (x =? y) && starts_with v' s'
  end.

Fixpoint indexOf_from (s v : jsstring) (i : Z) : Z :=
  if starts_with v s then i
  else match s with
       | [] => -1
       | _ :: s' => indexOf_from s' v (i + 1)
       end.

(** [s.indexOf(v)]: the least index at which [v] occurs in [s], or -1. *)
Definition indexOf (s v : jsstring) : Z := indexOf_from s v 0.

Fixpoint lastIndexOf_from (s v : jsstring) (i found : Z) : Z :=
  let found' := if starts_with v s then i else found in
  match s with
  | [] => found'
  | _ :: s' => lastIndexOf_from s' v (i + 1) found'
  end.

(** [s.lastIndexOf(v)]: the greatest index at which [v] occurs in [s], or -1. *)
Definition lastIndexOf (s v : jsstring) : Z := lastIndexOf_from s v 0 (-1).

(** *** Slicing *)

Definition relative_index (len i : Z) : Z :=
  if i <? 0 then Z.max (len + i) 0 else Z.min i len.

(** [s.slice(start, end)], negative indices counting from the end. *)
Definition slice (s : jsstring) (start end_ : Z) : jsstring :=
  let k := relative_index (length s) start in
  let final := relative_index (length s) end_ in
  firstn (Z.to_nat (Z.max (final - k) 0)) (skipn (Z.to_nat k) s).

(** [s.slice(start)]. *)
Definition slice_from (s : jsstring) (start : Z) : jsstring :=
  slice s start (length s).

(** *** Character classes of regular expressions (no [u] flag: code units) *)

Inductive class_item : Type :=
| Chr (c : Z)
| Rng (lo hi : Z).

Definition item_mem (c : Z) (it : class_item) : bool :=
  match it with
  | Chr d => c =? d
  | Rng lo hi => (lo <=? c) && (c <=? hi)
  end.

Definition class_mem (cls : list class_item) (c : Z) : bool :=
  existsb (item_mem c) cls.

(** [/[cls]/.test(s)]: some code unit of [s] is in the class. *)
Definition test_class (cls : list class_item) (s : jsstring) : bool :=
  existsb (class_mem cls) s.

(** [s.match(/[cls]/g)]: the array of all the one-unit matches, in order,
    or [null] ([None]) when there is none. *)
Definition match_all_class (cls : list class_item) (s : jsstring)
  : option (list jsstring) :=
  match filter (class_mem cls) s with
  | [] => None
  | m => Some (map (fun c => [c]) m)
  end.

(** [arr[arr.length - 1]] *)
Definition last_elem (arr : list jsstring) : jsstring := last arr [].

End JS.

Import JS.

(** ** The plugin *)

(** *** Settings *)

Record ToneColorSettings : Type := {
  tone1 : jsstring;
  tone2 : jsstring;
  tone3 : jsstring;
  tone4 : jsstring;
  tone0 : jsstring
}.

Definition DEFAULT_SETTINGS : ToneColorSettings := {|
  tone1 := js "blue";
  tone2 := js "green";
  tone3 := js "black";
  tone4 := js "red";
  tone0 := js "gray"
|}.

(** *** [isChineseChar]

    [/[\u4E00-\u9FFF]/.test(char)] *)
Definition isChineseChar (char : jsstring) : bool :=
  test_class [Rng 0x4E00 0x9FFF] char.

(** *** [addToneMark] *)

(** The object literal [toneMap], keys in the order of the source. *)
Definition toneMap : list (jsstring * list jsstring) := Eval vm_compute in
  [ (js "a", [js "ā"; js "á"; js "ǎ"; js "à"]);
    (js "e", [js "ē"; js "é"; js "ě"; js "è"]);
    (js "i", [js "ī"; js "í"; js "ǐ"; js "ì"]);
    (js "o", [js "ō"; js "ó"; js "ǒ"; js "ò"]);
    (js "u", [js "ū"; js "ú"; js "ǔ"; js "ù"]);
    (js "ü", [js "ǖ"; js "ǘ"; js "ǚ"; js "ǜ"]);
    (js "A", [js "Ā"; js "Á"; js "Ǎ"; js "À"]);
    (js "E", [js "Ē"; js "É"; js "Ě"; js "È"]);
    (js "I", [js "Ī"; js "Í"; js "Ǐ"; js "Ì"]);
    (js "O", [js "Ō"; js "Ó"; js "Ǒ"; js "Ò"]);
    (js "U", [js "Ū"; js "Ú"; js "Ǔ"; js "Ù"]);
    (js "Ü", [js "Ǖ"; js "Ǘ"; js "Ǚ"; js "Ǜ"]) ].

Definition string_eqb (a b : jsstring) : bool :=
  if list_eq_dec Z.eq_dec a b then true else false.

(** [obj[key]]: the value of an own property, [undefined] ([None]) when
    there is none. *)
Fixpoint property {V : Type} (obj : list (jsstring * V)) (key : jsstring)
  : option V :=
  match obj with
  | [] => None
  | (k, v) :: obj' => if string_eqb k key then Some v else property obj' key
  end.

(** [arr[i]] in a string concatenation: [undefined] is printed as the word
    when [i] is not an index of the array. *)
Definition element_text (arr : list jsstring) (i : Z) : jsstring :=
  if i <? 0 then js "undefined"
  else nth (Z.to_nat i) arr (js "undefined").

Definition vowelsOrder : list jsstring := Eval vm_compute in
  [js "a"; js "A"; js "o"; js "O"; js "e"; js "E"].

(** The class of [/[iIuUüÜ]/g]. *)
Definition fallback_vowels : list class_item := Eval vm_compute in
  map Chr (js "iIuUüÜ").

(** The loop [for (const v of vowelsOrder)] with its [break], on the pair
    of variables ([targetIdx], [chosenVowel]). *)
Fixpoint priority_loop (syllable : jsstring) (vs : list jsstring)
    (targetIdx : Z) (chosenVowel : jsstring) : Z * jsstring :=
  match vs with
  | [] => (targetIdx, chosenVowel)
  | v :: vs' =>
    let targetIdx := indexOf syllable v in
    if negb (targetIdx =? -1) then (targetIdx, v)
    else priority_loop syllable vs' targetIdx chosenVowel
  end.

(** [tone] is a number of JavaScript; the only caller passes an integer
    (zero, or the value of one decimal digit), and so does the model. *)
Definition addToneMark (syllable : jsstring) (tone : Z) : jsstring :=
  if (tone <? 1) || (tone >? 4) then syllable
  else
    let '(targetIdx, chosenVowel) :=
      priority_loop syllable vowelsOrder (-1) (js "") in
    let '(targetIdx, chosenVowel) :=
      if targetIdx =? -1 then
        match match_all_class fallback_vowels syllable with
        | Some vowelMatch =>
          let lastVowel := last_elem vowelMatch in
          (lastIndexOf syllable lastVowel, lastVowel)
        | None => (targetIdx, chosenVowel)
        end
      else (targetIdx, chosenVowel) in
    if negb (targetIdx =? -1) then
      match property toneMap chosenVowel with
      | Some marks =>
        slice syllable 0 targetIdx ++ element_text marks (tone - 1)
          ++ slice_from syllable (targetIdx + 1)
      | None => syllable
      end
    else syllable.

(** *** [getAccentedColoredPinyin] *)

(** The flag [i] without [u] compares the upper-case forms of code units.
    Of the upper-case mapping only the part that reaches the class
    [[a-züÜ]] is written out: a-z go to A-Z and ü goes to Ü. Every other
    code unit is mapped to itself or to a unit outside A-Z and Ü (the
    units above 127 whose upper case is in A-Z, ı and ſ, are kept as they
    are by the rule of the language). *)
Definition canonicalize (c : Z) : Z :=
  if (97 <=? c) && (c <=? 122) then c - 32
  else if c =? 0xFC then 0xDC
  else c.

Definition units_between (lo hi : Z) : list Z :=
  map (fun k => lo + Z.of_nat k) (seq 0 (Z.to_nat (hi - lo + 1))).

Definition item_mem_ci (c : Z) (it : class_item) : bool :=
  match it with
  | Chr d => canonicalize d =? canonicalize c
  | Rng lo hi =>
    existsb (fun d => canonicalize d =? canonicalize c) (units_between lo hi)
  end.

Definition class_mem_ci (cls : list class_item) (c : Z) : bool :=
  existsb (item_mem_ci c) cls.

(** [[a-züÜ]] and [\d] *)
Definition pinyin_letters : list class_item := [Rng 97 122; Chr 0xFC; Chr 0xDC].
Definition decimal_digit : list class_item := [Rng 48 57].

(** The longest prefix of units satisfying [p], and the rest. *)
Fixpoint span (p : Z -> bool) (s : jsstring) : jsstring * jsstring :=
  match s with
  | [] => ([], [])
  | c :: s' =>
    if p c then let (a, b) := span p s' in (c :: a, b) else ([], s)
  end.

(** [numericPinyin.match(/^([a-züÜ]+)(\d)?$/i)]: [null] ([None]) or the two
    captures, the second one [undefined] ([None]) when the group did not
    take part. The greedy [+] takes every leading letter; giving one back
    cannot help, since a letter is neither a digit nor the end of the
    input. *)
Definition match_pinyin (numericPinyin : jsstring)
  : option (jsstring * option jsstring) :=
  let (base, rest) := span (class_mem_ci pinyin_letters) numericPinyin in
  match base with
  | [] => None
  | _ :: _ =>
    match rest with
    | [] => Some (base, None)
    | [d] => if class_mem decimal_digit d then Some (base, Some [d]) else None
    | _ :: _ :: _ => None
    end
  end.

Fixpoint parse_digits (acc : Z) (s : jsstring) : Z :=
  match s with
  | [] => acc
  | d :: s' =>
    if class_mem decimal_digit d then parse_digits (acc * 10 + (d - 48)) s'
    else acc
  end.

(** [parseInt(s, 10)] on a string that starts with a decimal digit, as
    the capture of [(\d)] does. *)
Definition parseInt10 (s : jsstring) : Z := parse_digits 0 s.

Definition getAccentedColoredPinyin (numericPinyin : jsstring)
    (settings : ToneColorSettings) : jsstring * jsstring :=
  match match_pinyin numericPinyin with
  | None => (numericPinyin, tone0 settings)
  | Some (base, toneStr) =>
    let tone :=
      match toneStr with
      | Some ((_ :: _) as digits) => parseInt10 digits
      | _ => 0
      end in
    let color := tone0 settings in
    let color :=
      if tone =? 1 then tone1 settings
      else if tone =? 2 then tone2 settings
      else if tone =? 3 then tone3 settings
      else if tone =? 4 then tone4 settings
      else color in
    let accented := addToneMark base tone in
    (accented, color)
  end.

Definition accented (r : jsstring * jsstring) : jsstring := fst r.
Definition color (r : jsstring * jsstring) : jsstring := snd r.

(** *** The editor, the decorations and the plugin value *)

Record Viewport : Type := { vp_from : Z; vp_to : Z }.

(** What [computeDecorations] reads of an [EditorView]: the text of
    [view.state.doc] and [view.viewport]. *)
Record EditorView : Type := {
  doc : jsstring;
  viewport : Viewport
}.

(** [Decoration.mark({attributes: {style, title}})] *)
Record Decoration : Type := {
  style : jsstring;
  title : jsstring
}.

(** A range of a [RangeSet]: [value] over the offsets [[r_from, r_to)]. *)
Record Range : Type := {
  r_from : Z;
  r_to : Z;
  value : Decoration
}.

Definition DecorationSet : Type := list Range.

(** [RangeSetBuilder]: the ranges added so far, oldest first. *)
Definition RangeSetBuilder : Type := list Range.

Definition new_builder : RangeSetBuilder := [].

Definition add (builder : RangeSetBuilder) (from to : Z) (deco : Decoration)
  : RangeSetBuilder :=
  builder ++ [{| r_from := from; r_to := to; value := deco |}].

Definition finish (builder : RangeSetBuilder) : DecorationSet := builder.

(** The objects a pass can reach: the view, the settings object shared with
    the settings tab, and the field [decorations] of the plugin value. *)
Record World : Type := {
  view : EditorView;
  settings : ToneColorSettings;
  decorations : DecorationSet
}.

Inductive completion (A : Type) : Type :=
| Normal (a : A)
| TypeError
| OutOfFuel.

Arguments Normal {A} a.
Arguments TypeError {A}.
Arguments OutOfFuel {A}.

(** Computations over the world: a completion and the world left behind. *)
Definition M (A : Type) : Type := World -> completion A * World.

Definition ret {A : Type} (a : A) : M A := fun w => (Normal a, w).

Definition bind {A B : Type} (m : M A) (k : A -> M B) : M B :=
  fun w =>
    match m w with
    | (Normal a, w') => k a w'
    | (TypeError, w') => (TypeError, w')
    | (OutOfFuel, w') => (OutOfFuel, w')
    end.

Definition throw_TypeError {A : Type} : M A := fun w => (TypeError, w).
Definition out_of_fuel {A : Type} : M A := fun w => (OutOfFuel, w).

Definition read_doc : M jsstring := fun w => (Normal (doc (view w)), w).
Definition read_viewport : M Viewport := fun w => (Normal (viewport (view w)), w).
Definition read_settings : M ToneColorSettings := fun w => (Normal (settings w), w).

Definition write_decorations (ds : DecorationSet) : M unit :=
  fun w => (Normal tt,
            {| view := view w; settings := settings w; decorations := ds |}).

Declare Scope pass_scope.
Delimit Scope pass_scope with pass.
Notation "x <- m ;; k" := (bind m (fun x => k))
  (at level 61, m at next level, right associativity) : pass_scope.
Local Open Scope pass_scope.

Definition result {A : Type} (r : completion A * World) : completion A := fst r.
Definition final {A : Type} (r : completion A * World) : World := snd r.

(** *** [computeDecorations] *)

(** [char.codePointAt(0)! > 0xffff ? 2 : 1]; the comparison with
    [undefined] is false. *)
Definition charSize_of (char : jsstring) : Z :=
  match codePointAt0 char with
  | Some cp => if cp >? 0xFFFF then 2 else 1
  | None => 1
  end.

(** [a || ""] for the first element of an array of strings. *)
Definition first_or_empty (arr : list jsstring) : jsstring :=
  match arr with
  | [] => js ""
  | p :: _ => match p with [] => js "" | _ :: _ => p end
  end.

Section Pipeline.

(** [pinyin(char, { toneType: 'num', type: 'array' })] of the package
    pinyin-pro: a function of the character. *)
Variable pinyin : jsstring -> list jsstring.

(** One turn of the loop of [computeDecorations] at [pos]: the next
    position and the builder. [text[pos]] outside the text is [undefined],
    on which [codePointAt] raises a [TypeError]. *)
Definition loop_body (text : jsstring) (pos : Z) (builder : RangeSetBuilder)
  : M (Z * RangeSetBuilder) :=
  match at_index text pos with
  | None => throw_TypeError
  | Some char =>
    let charSize := charSize_of char in
    if isChineseChar char then
      let pyArr := pinyin char in
      let numericPinyin := first_or_empty pyArr in
      st <- read_settings ;;
      let r := getAccentedColoredPinyin numericPinyin st in
      let deco := {| style := js "color:" ++ color r ++ js ";";
                     title := accented r |} in
      ret (pos + charSize, add builder pos (pos + charSize) deco)
    else ret (pos + charSize, builder)
  end.

(** [for (let pos = from; pos < to; ) { ... pos += charSize; }] *)
Fixpoint scan (fuel : nat) (text : jsstring) (to pos : Z)
    (builder : RangeSetBuilder) : M RangeSetBuilder :=
  if pos <? to then
    match fuel with
    | O => out_of_fuel
    | S fuel' =>
      st <- loop_body text pos builder ;;
      scan fuel' text to (fst st) (snd st)
    end
  else ret builder.

(** Every turn moves [pos] forward by one at least, so [to - from] turns
    are enough. *)
Definition computeDecorations : M DecorationSet :=
  text <- read_doc ;;
  vp <- read_viewport ;;
  builder <- scan (Z.to_nat (vp_to vp - vp_from vp)) text
                  (vp_to vp) (vp_from vp) new_builder ;;
  ret (finish builder).

(** The constructor and [update] of the plugin value. *)
Record ViewUpdate : Type := {
  docChanged : bool;
  viewportChanged : bool
}.

Definition constructor : M unit :=
  ds <- computeDecorations ;;
  write_decorations ds.

Definition update (u : ViewUpdate) : M unit :=
  if docChanged u || viewportChanged u then
    ds <- computeDecorations ;;
    write_decorations ds
  else ret tt.

End Pipeline.

(** A romanizer to run the pipeline on: the readings of a few characters. *)
Definition sample_pinyin (char : jsstring) : list jsstring :=
  if string_eqb char (js "中") then [js "zhong1"]
  else if string_eqb char (js "文") then [js "wen2"]
  else if string_eqb char (js "好") then [js "hao3"]
  else if string_eqb char (js "的") then [js "de0"]
  else [].

Definition sample_world (text : string) (from to : Z) : World :=
  {| view := {| doc := js text; viewport := {| vp_from := from; vp_to := to |} |};
     settings := DEFAULT_SETTINGS;
     decorations := [] |}.

(** ** Vocabulary of the properties *)

(** The letters searched first, in their order of priority (a A o O e E),
    and the letters of the fallback (i I u U ü Ü). *)
Definition priority_letters : list Z := [0x61; 0x41; 0x6F; 0x4F; 0x65; 0x45].
Definition fallback_letters : list Z := [0x69; 0x49; 0x75; 0x55; 0xFC; 0xDC].
Definition markable_letters : list Z := priority_letters ++ fallback_letters.

(** What [addToneMark] writes in place of the chosen letter [v]. *)
Definition marked (v : Z) (tone : Z) : jsstring :=
  match property toneMap [v] with
  | Some marks => element_text marks (tone - 1)
  | None => [v]
  end.

(** The combining character of each tone: macron, acute accent, caron and
    grave accent. *)
Definition combining_mark (tone : Z) : Z :=
  if tone =? 1 then 0x0304
  else if tone =? 2 then 0x0301
  else if tone =? 3 then 0x030C
  else 0x0300.

(** The canonical decompositions of the Unicode character database for the
    letters with a tone mark: the letter, then the combining character. *)
Definition decompositions : list (Z * (Z * Z)) :=
  [
    (0x0101, (0x0061, 0x0304));
    (0x00E1, (0x0061, 0x0301));
    (0x01CE, (0x0061, 0x030C));
    (0x00E0, (0x0061, 0x0300));
    (0x0113, (0x0065, 0x0304));
    (0x00E9, (0x0065, 0x0301));
    (0x011B, (0x0065, 0x030C));
    (0x00E8, (0x0065, 0x0300));
    (0x012B, (0x0069, 0x0304));
    (0x00ED, (0x0069, 0x0301));
    (0x01D0, (0x0069, 0x030C));
    (0x00EC, (0x0069, 0x0300));
    (0x014D, (0x006F, 0x0304));
    (0x00F3, (0x006F, 0x0301));
    (0x01D2, (0x006F, 0x030C));
    (0x00F2, (0x006F, 0x0300));
    (0x016B, (0x0075, 0x0304));
    (0x00FA, (0x0075, 0x0301));
    (0x01D4, (0x0075, 0x030C));
    (0x00F9, (0x0075, 0x0300));
    (0x01D6, (0x00FC, 0x0304));
    (0x01D8, (0x00FC, 0x0301));
    (0x01DA, (0x00FC, 0x030C));
    (0x01DC, (0x00FC, 0x0300));
    (0x0100, (0x0041, 0x0304));
    (0x00C1, (0x0041, 0x0301));
    (0x01CD, (0x0041, 0x030C));
    (0x00C0, (0x0041, 0x0300));
    (0x0112, (0x0045, 0x0304));
    (0x00C9, (0x0045, 0x0301));
    (0x011A, (0x0045, 0x030C));
    (0x00C8, (0x0045, 0x0300));
    (0x012A, (0x0049, 0x0304));
    (0x00CD, (0x0049, 0x0301));
    (0x01CF, (0x0049, 0x030C));
    (0x00CC, (0x0049, 0x0300));
    (0x014C, (0x004F, 0x0304));
    (0x00D3, (0x004F, 0x0301));
    (0x01D1, (0x004F, 0x030C));
    (0x00D2, (0x004F, 0x0300));
    (0x016A, (0x0055, 0x0304));
    (0x00DA, (0x0055, 0x0301));
    (0x01D3, (0x0055, 0x030C));
    (0x00D9, (0x0055, 0x0300));
    (0x01D5, (0x00DC, 0x0304));
    (0x01D7, (0x00DC, 0x0301));
    (0x01D9, (0x00DC, 0x030C));
    (0x01DB, (0x00DC, 0x0300))
  ].

Fixpoint assoc {V : Type} (k : Z) (l : list (Z * V)) : option V :=
  match l with
  | [] => None
  | (k', v) :: l' => if k =? k' then Some v else assoc k l'
  end.

Definition canonical_decomposition (c : Z) : option (Z * Z) :=
  assoc c decompositions.

(** The letters of a romanization: ASCII letters, ü and Ü. *)
Definition is_pinyin_letter (c : Z) : bool :=
  ((0x61 <=? c) && (c <=? 0x7A)) || ((0x41 <=? c) && (c <=? 0x5A))
  || (c =? 0xFC) || (c =? 0xDC).

(** The decimal digit of value [d] as a code unit. *)
Definition digit_unit (d : Z) : Z := 0x30 + d.

(** The shape [<letters><optional digit 0-max_digit>], with one letter at
    least. *)
Definition has_shape (max_digit : Z) (s : jsstring) : Prop :=
  exists (base digits : jsstring),
    s = base ++ digits /\ base <> [] /\
    forallb is_pinyin_letter base = true /\
    (digits = [] \/
     exists d, digits = [digit_unit d] /\ 0 <= d <= max_digit).

(** The color of a tone: tone 1 to 4 has its own, anything else has the
    neutral one. *)
Definition colorFor (tone : Z) (config : ToneColorSettings) : jsstring :=
  if tone =? 1 then tone1 config
  else if tone =? 2 then tone2 config
  else if tone =? 3 then tone3 config
  else if tone =? 4 then tone4 config
  else tone0 config.

(** The characters of a text, as the string iterator delimits them: a
    leading surrogate followed by a trailing one is one character of two
    units, every other unit is a character of its own. The spans are
    [(start, end)] offsets, counted from [pos]. *)
Fixpoint character_spans (pos : Z) (s : jsstring) : list (Z * Z) :=
  match s with
  | [] => []
  | c :: rest =>
    if is_leading_surrogate c then
      match rest with
      | d :: rest' =>
        if is_trailing_surrogate d
        then (pos, pos + 2) :: character_spans (pos + 2) rest'
        else (pos, pos + 1) :: character_spans (pos + 1) rest
      | [] => [(pos, pos + 1)]
      end
    else (pos, pos + 1) :: character_spans (pos + 1) rest
  end.

(** Start offsets strictly increasing, and no two spans overlapping. *)
Definition strictly_increasing_starts (ds : DecorationSet) : Prop :=
  StronglySorted (fun a b => r_from a < r_from b) ds.

Definition pairwise_disjoint (ds : DecorationSet) : Prop :=
  ForallOrdPairs (fun a b => r_to a <= r_from b) ds.

Definition covers_one_character (text : jsstring) (d : Range) : Prop :=
  In (r_from d, r_to d) (character_spans 0 text).

Definition within (vp : Viewport) (d : Range) : Prop :=
  vp_from vp <= r_from d /\ r_to d <= vp_to vp.

(** The decoration that a turn of the loop builds for a Chinese character. *)
Definition decoration_for (pinyin : jsstring -> list jsstring)
    (st : ToneColorSettings) (char : jsstring) : Decoration :=
  let r := getAccentedColoredPinyin (first_or_empty (pinyin char)) st in
  {| style := js "color:" ++ color r ++ js ";"; title := accented r |}.

(** A range added by the loop at the position of a Chinese character: one
    unit wide, carrying the decoration of that character. *)
Definition annotates (pinyin : jsstring -> list jsstring) (text : jsstring)
    (st : ToneColorSettings) (d : Range) : Prop :=
  exists char,
    at_index text (r_from d) = Some char /\ isChineseChar char = true /\
    r_to d = r_from d + 1 /\ value d = decoration_for pinyin st char.

(** Ranges laid out one after the other from [lo] on, below [hi]. *)
Fixpoint chain (lo hi : Z) (ds : list Range) : Prop :=
  match ds with
  | [] => True
  | d :: ds' => lo <= r_from d /\ r_from d < r_to d /\ r_to d <= hi /\
                chain (r_to d) hi ds'
  end.

(** The text and the range of a world. *)
Definition text_of (w : World) : jsstring := doc (view w).
Definition from_of (w : World) : Z := vp_from (viewport (view w)).
Definition to_of (w : World) : Z := vp_to (viewport (view w)).

(** ** Vocabulary of the further properties *)

(** The offsets of the range [[from, to)], in order. *)
Definition positions (from to : Z) : list Z := units_between from (to - 1).

(** The decoration owed to the offset [p]: one range of one unit when the
    unit at [p] is a Chinese character, nothing otherwise. *)
Definition decoration_at (pinyin : jsstring -> list jsstring)
    (st : ToneColorSettings) (text : jsstring) (p : Z) : list Range :=
  match at_index text p with
  | Some char =>
    if isChineseChar char
    then [ {| r_from := p; r_to := p + 1;
              value := decoration_for pinyin st char |} ]
    else []
  | None => []
  end.

Definition expected_decorations (pinyin : jsstring -> list jsstring)
    (st : ToneColorSettings) (text : jsstring) (from to : Z) : DecorationSet :=
  flat_map (decoration_at pinyin st text) (positions from to).

(** The world with another viewport. *)
Definition with_viewport (w : World) (from to : Z) : World :=
  {| view := {| doc := doc (view w);
                viewport := {| vp_from := from; vp_to := to |} |};
     settings := settings w;
     decorations := decorations w |}.

(** The five colors of the settings. *)
Definition configured_colors (st : ToneColorSettings) : list jsstring :=
  [tone1 st; tone2 st; tone3 st; tone4 st; tone0 st].

(** Reading an accented text back: the letter under a tone mark, the tone
    of a combining character, and the numbered romanization of a text. *)
Definition base_letter (c : Z) : Z :=
  match canonical_decomposition c with
  | Some (v, _) => v
  | None => c
  end.

Definition tone_of_mark (m : Z) : Z :=
  if m =? 0x0304 then 1
  else if m =? 0x0301 then 2
  else if m =? 0x030C then 3
  else if m =? 0x0300 then 4
  else 0.

Definition strip_marks (s : jsstring) : jsstring := map base_letter s.

Fixpoint tone_of_text (s : jsstring) : Z :=
  match s with
  | [] => 0
  | c :: s' =>
    match canonical_decomposition c with
    | Some (_, m) => tone_of_mark m
    | None => tone_of_text s'
    end
  end.

Definition to_numeric (s : jsstring) : jsstring :=
  strip_marks s ++ [digit_unit (tone_of_text s)].

(** ** The plugin class and the settings tab

    [ChineseColorEditorPlugin] keeps a reference to its settings object,
    builds the object in [loadSettings], hands the reference to the editor
    extension in [onload], and saves the object after every change made in
    the settings tab. The settings objects live in a heap, so that the two
    references can be told apart. *)

Module PluginSettings.

(** An object with string values: its own properties, in insertion order. *)
Definition object : Type := list (jsstring * jsstring).

(** [obj[key] = v]: an existing property takes the value and keeps its
    place, a new one goes last. *)
Fixpoint set_property (obj : object) (key v : jsstring) : object :=
  match obj with
  | [] => [(key, v)]
  | (k, v') :: obj' =>
    if string_eqb k key then (k, v) :: obj'
    else (k, v') :: set_property obj' key v
  end.

Definition own_keys (obj : object) : list jsstring := map fst obj.

(** One source of [Object.assign]: [null] is skipped; otherwise every own
    key of the source is read from it and written to the target. *)
Definition assign_from (target : object) (source : option object) : object :=
  match source with
  | None => target
  | Some src =>
    fold_left
      (fun t key =>
         match property src key with
         | Some v => set_property t key v
         | None => t
         end)
      (own_keys src) target
  end.

(** [Object.assign(target, ...sources)] *)
Definition Object_assign (target : object) (sources : list (option object))
  : object :=
  fold_left assign_from sources target.

(** The keys of the settings. *)
Inductive tone_key : Type := Tone1 | Tone2 | Tone3 | Tone4 | Tone0.

Definition key_name (k : tone_key) : jsstring :=
  match k with
  | Tone1 => js "tone1"
  | Tone2 => js "tone2"
  | Tone3 => js "tone3"
  | Tone4 => js "tone4"
  | Tone0 => js "tone0"
  end.

Definition tone (k : tone_key) (st : ToneColorSettings) : jsstring :=
  match k with
  | Tone1 => tone1 st
  | Tone2 => tone2 st
  | Tone3 => tone3 st
  | Tone4 => tone4 st
  | Tone0 => tone0 st
  end.

(** The object literal of a settings value, keys in the order of
    [DEFAULT_SETTINGS]. *)
Definition to_object (st : ToneColorSettings) : object :=
  [ (js "tone1", tone1 st); (js "tone2", tone2 st); (js "tone3", tone3 st);
    (js "tone4", tone4 st); (js "tone0", tone0 st) ].

(** A property read into the style of a decoration: a missing one is
    [undefined], printed as the word by the template literal. *)
Definition read (obj : object) (key : jsstring) : jsstring :=
  match property obj key with
  | Some v => v
  | None => js "undefined"
  end.

(** The settings a pass reads from an object. *)
Definition of_object (obj : object) : ToneColorSettings :=
  {| tone1 := read obj (js "tone1");
     tone2 := read obj (js "tone2");
     tone3 := read obj (js "tone3");
     tone4 := read obj (js "tone4");
     tone0 := read obj (js "tone0") |}.

(** The plugin: the heap of settings objects, [this.settings] (undefined
    before [loadSettings]), the content of the data file as [loadData]
    returns it ([null] when there is none), and the settings reference held
    by the registered editor extension. *)
Record Plugin : Type := {
  heap : list object;
  this_settings : option nat;
  data : option object;
  extension : option nat
}.

(** The plugin before [onload], with a given data file. *)
Definition fresh (stored : option object) : Plugin :=
  {| heap := []; this_settings := None; data := stored; extension := None |}.

(** [this.settings = Object.assign({}, DEFAULT_SETTINGS, await this.loadData())] *)
Definition loadSettings (p : Plugin) : Plugin :=
  let obj := Object_assign [] [Some (to_object DEFAULT_SETTINGS); data p] in
  {| heap := heap p ++ [obj];
     this_settings := Some (List.length (heap p));
     data := data p;
     extension := extension p |}.

Definition deref (p : Plugin) (ref : option nat) : option object :=
  match ref with
  | Some a => nth_error (heap p) a
  | None => None
  end.

(** [await this.saveData(this.settings)]: the data file takes the content
    of the object. *)
Definition saveSettings (p : Plugin) : option Plugin :=
  match deref p (this_settings p) with
  | Some obj =>
    Some {| heap := heap p; this_settings := this_settings p;
            data := Some obj; extension := extension p |}
  | None => None
  end.

(** [onload]: the settings are loaded, then the extension is registered
    with [this.settings]. *)
Definition onload (p : Plugin) : Plugin :=
  let p' := loadSettings p in
  {| heap := heap p'; this_settings := this_settings p';
     data := data p'; extension := this_settings p' |}.

Fixpoint store (h : list object) (a : nat) (obj : object) : list object :=
  match h, a with
  | [], _ => []
  | _ :: h', O => obj :: h'
  | o :: h', S a' => o :: store h' a' obj
  end.

(** The handler of a text field of the settings tab:
    [this.plugin.settings.toneN = value; await this.plugin.saveSettings()].
    Without settings object the assignment raises ([None]). *)
Definition onChange (k : tone_key) (value : jsstring) (p : Plugin)
  : option Plugin :=
  match this_settings p with
  | Some a =>
    match nth_error (heap p) a with
    | Some obj =>
      saveSettings
        {| heap := store (heap p) a (set_property obj (key_name k) value);
           this_settings := this_settings p;
           data := data p;
           extension := extension p |}
    | None => None
    end
  | None => None
  end.

(** A sequence of changes made in the settings tab. *)
Fixpoint changes (cs : list (tone_key * jsstring)) (p : Plugin)
  : option Plugin :=
  match cs with
  | [] => Some p
  | (k, value) :: cs' =>
    match onChange k value p with
    | Some p' => changes cs' p'
    | None => None
    end
  end.

(** The settings that a pass of the registered extension reads. *)
Definition pass_settings (p : Plugin) : option ToneColorSettings :=
  option_map of_object (deref p (extension p)).

(** A settings value with one color replaced. *)
Definition with_tone (k : tone_key) (value : jsstring)
    (st : ToneColorSettings) : ToneColorSettings :=
  {| tone1 := match k with Tone1 => value | _ => tone1 st end;
     tone2 := match k with Tone2 => value | _ => tone2 st end;
     tone3 := match k with Tone3 => value | _ => tone3 st end;
     tone4 := match k with Tone4 => value | _ => tone4 st end;
     tone0 := match k with Tone0 => value | _ => tone0 st end |}.

Definition edited (cs : list (tone_key * jsstring))
    (st : ToneColorSettings) : ToneColorSettings :=
  fold_left (fun st c => with_tone (fst c) (snd c) st) cs st.

(** The stored color of a key, or the default one when the data file is
    missing or does not hold the key. *)
Definition merged (stored : option object) (k : tone_key) : jsstring :=
  match stored with
  | Some obj =>
    match property obj (key_name k) with
    | Some v => v
    | None => tone k DEFAULT_SETTINGS
    end
  | None => tone k DEFAULT_SETTINGS
  end.

Definition merged_settings (stored : option object) : ToneColorSettings :=
  {| tone1 := merged stored Tone1; tone2 := merged stored Tone2;
     tone3 := merged stored Tone3; tone4 := merged stored Tone4;
     tone0 := merged stored Tone0 |}.

(** The state of a loaded plugin: both references name the same object of
    the heap, the object holds the five keys, and loading the data file
    again would give the colors it holds. *)
Definition loaded (p : Plugin) (st : ToneColorSettings) : Prop :=
  exists a obj,
    this_settings p = Some a /\ extension p = Some a /\
    nth_error (heap p) a = Some obj /\
    (forall k : tone_key, property obj (key_name k) <> None) /\
    of_object obj = st /\ merged_settings (data p) = st.

End PluginSettings.

(** ** Runs on concrete inputs *)

Example js_ascii : js "hao" = [0x68; 0x61; 0x6F].
Proof. reflexivity. Qed.

Example js_bmp : js "ǎü中" = [0x1CE; 0xFC; 0x4E2D].
Proof. reflexivity. Qed.

Example js_astral : js "𠀀" = [0xD840; 0xDC00].
Proof. reflexivity. Qed.

Example indexOf_runs :
  indexOf (js "banana") (js "a") = 1 /\ lastIndexOf (js "banana") (js "a") = 5
  /\ indexOf (js "banana") (js "x") = -1 /\ indexOf (js "banana") (js "nan") = 2.
Proof. repeat split. Qed.

Example slice_runs :
  slice (js "zhong") 0 2 = js "zh" /\ slice_from (js "zhong") 3 = js "ng"
  /\ slice (js "zhong") (-2) 5 = js "ng".
Proof. repeat split. Qed.

Example addToneMark_runs :
  addToneMark (js "lüe") 4 = js "lüè" /\ addToneMark (js "nü") 3 = js "nǚ"
  /\ addToneMark (js "XIONG") 2 = js "XIÓNG" /\ addToneMark (js "ng") 2 = js "ng".
Proof. repeat split. Qed.

Example match_pinyin_runs :
  match_pinyin (js "zhong1") = Some (js "zhong", Some (js "1"))
  /\ match_pinyin (js "LÜ4") = Some (js "LÜ", Some (js "4"))
  /\ match_pinyin (js "ma") = Some (js "ma", None)
  /\ match_pinyin (js "ma12") = None /\ match_pinyin (js "3") = None
  /\ match_pinyin (js "") = None /\ match_pinyin (js "mé2") = None.
Proof. repeat split. Qed.

Example getAccentedColoredPinyin_runs :
  getAccentedColoredPinyin (js "hao3") DEFAULT_SETTINGS = (js "hǎo", js "black")
  /\ getAccentedColoredPinyin (js "de0") DEFAULT_SETTINGS = (js "de", js "gray")
  /\ getAccentedColoredPinyin (js "") DEFAULT_SETTINGS = (js "", js "gray").
Proof. repeat split. Qed.

Example computeDecorations_runs :
  result (computeDecorations sample_pinyin (sample_world "I love 中文" 0 9))
  = Normal [ {| r_from := 7; r_to := 8;
                value := {| style := js "color:blue;"; title := js "zhōng" |} |};
             {| r_from := 8; r_to := 9;
                value := {| style := js "color:green;"; title := js "wén" |} |} ]
  /\ result (computeDecorations sample_pinyin (sample_world "中文" 1 1)) = Normal []
  /\ result (computeDecorations sample_pinyin (sample_world "中文" 0 3)) = TypeError.
Proof. repeat split. Qed.

(** ** Properties of the string primitives *)

Section StringFacts.

Implicit Types (s pre post : jsstring) (v c : Z).

Lemma length_nonneg s : 0 <= JS.length s.
Proof. unfold JS.length. lia. Qed.

Lemma length_app s1 s2 : JS.length (s1 ++ s2) = JS.length s1 + JS.length s2.
Proof. unfold JS.length. rewrite List.length_app. lia. Qed.

Lemma length_cons c s : JS.length (c :: s) = 1 + JS.length s.
Proof. unfold JS.length. cbn [List.length]. lia. Qed.

Lemma starts_with_unit v s :
  starts_with [v] s = match s with [] => false | c :: _ => v =? c end.
Proof.
  destruct s as [|c s']; cbn; [reflexivity|].
  now rewrite andb_true_r.
Qed.

Lemma indexOf_from_absent v s i :
  ~ In v s -> indexOf_from s [v] i = -1.
Proof.
  revert i. induction s as [|c s IH]; intros i Hv; cbn [indexOf_from].
  - reflexivity.
  - rewrite starts_with_unit.
    destruct (Z.eqb_spec v c) as [->|_].
    + exfalso. apply Hv. now left.
    + apply IH. intro H. apply Hv. now right.
Qed.

Lemma indexOf_from_leftmost v pre post i :
  ~ In v pre -> indexOf_from (pre ++ v :: post) [v] i = i + JS.length pre.
Proof.
  revert i. induction pre as [|c pre IH]; intros i Hv.
  - cbn [app indexOf_from]. rewrite starts_with_unit, Z.eqb_refl.
    unfold JS.length. cbn. lia.
  - cbn [app indexOf_from]. rewrite starts_with_unit.
    destruct (Z.eqb_spec v c) as [->|_].
    + exfalso. apply Hv. now left.
    + rewrite IH, length_cons; [lia|].
      intro H. apply Hv. now right.
Qed.

Lemma indexOf_absent v s : ~ In v s -> indexOf s [v] = -1.
Proof. apply indexOf_from_absent. Qed.

Lemma indexOf_leftmost v pre post :
  ~ In v pre -> indexOf (pre ++ v :: post) [v] = JS.length pre.
Proof. intro H. unfold indexOf. now rewrite indexOf_from_leftmost. Qed.

Lemma lastIndexOf_from_absent v s i found :
  ~ In v s -> lastIndexOf_from s [v] i found = found.
Proof.
  revert i found. induction s as [|c s IH]; intros i found Hv;
    cbn [lastIndexOf_from]; rewrite starts_with_unit.
  - reflexivity.
  - destruct (Z.eqb_spec v c) as [->|_].
    + exfalso. apply Hv. now left.
    + apply IH. intro H. apply Hv. now right.
Qed.

Lemma lastIndexOf_from_rightmost v pre post i found :
  ~ In v post ->
  lastIndexOf_from (pre ++ v :: post) [v] i found = i + JS.length pre.
Proof.
  intro Hv. revert i found. induction pre as [|c pre IH]; intros i found.
  - cbn [app lastIndexOf_from]. rewrite starts_with_unit, Z.eqb_refl.
    rewrite lastIndexOf_from_absent by assumption.
    unfold JS.length. cbn. lia.
  - cbn [app lastIndexOf_from]. rewrite IH, length_cons. lia.
Qed.

Lemma lastIndexOf_rightmost v pre post :
  ~ In v post -> lastIndexOf (pre ++ v :: post) [v] = JS.length pre.
Proof. intro H. unfold lastIndexOf. now rewrite lastIndexOf_from_rightmost. Qed.

Lemma slice_prefix pre post :
  slice (pre ++ post) 0 (JS.length pre) = pre.
Proof.
  unfold slice, relative_index. rewrite length_app.
  pose proof (length_nonneg pre). pose proof (length_nonneg post).
  cbn [Z.ltb Z.compare]. 
  destruct (Z.ltb_spec (JS.length pre) 0); [lia|].
  rewrite Z.min_l by lia. rewrite Z.min_l by lia.
  cbn [Z.to_nat skipn]. rewrite Z.sub_0_r, Z.max_l by lia.
  unfold JS.length. rewrite Nat2Z.id.
  rewrite firstn_app, Nat.sub_diag, firstn_all. cbn. apply app_nil_r.
Qed.

Lemma slice_from_suffix pre c post :
  slice_from (pre ++ c :: post) (JS.length pre + 1) = post.
Proof.
  unfold slice_from, slice, relative_index.
  rewrite length_app, length_cons.
  pose proof (length_nonneg pre). pose proof (length_nonneg post).
  destruct (Z.ltb_spec (JS.length pre + 1) 0); [lia|].
  destruct (Z.ltb_spec (JS.length pre + (1 + JS.length post)) 0); [lia|].
  rewrite !Z.min_l by lia.
  replace (Z.to_nat (JS.length pre + 1)) with (List.length pre + 1)%nat
    by (unfold JS.length; lia).
  replace (pre ++ c :: post) with ((pre ++ [c]) ++ post)
    by (now rewrite <- app_assoc).
  rewrite skipn_app, skipn_all2 by (rewrite List.length_app; cbn; lia).
  rewrite List.length_app. cbn [List.length app].
  rewrite Nat.sub_diag. cbn [skipn].
  apply firstn_all2. unfold JS.length. lia.
Qed.

End StringFacts.

(** ** Properties of [addToneMark] *)

Section ToneMarkFacts.

Implicit Types (base pre post : jsstring) (v c tone : Z).

Lemma vowelsOrder_units : vowelsOrder = map (fun c => [c]) priority_letters.
Proof. reflexivity. Qed.

Lemma priority_loop_found base before v after k i0 chosen :
  (forall u, In u before -> ~ In u base) ->
  indexOf base [v] = k -> k <> -1 ->
  priority_loop base (map (fun c => [c]) (before ++ v :: after)) i0 chosen
  = (k, [v]).
Proof.
  intros Hbefore Hk Hne. revert i0 chosen.
  induction before as [|u before IH]; intros i0 chosen; cbn [app map priority_loop].
  - rewrite Hk. destruct (Z.eqb_spec k (-1)); [contradiction|reflexivity].
  - rewrite indexOf_absent by (apply Hbefore; now left).
    cbn [Z.eqb negb]. apply IH.
    intros u' Hu'. apply Hbefore. now right.
Qed.

Lemma priority_loop_none base letters chosen :
  (forall u, In u letters -> ~ In u base) ->
  priority_loop base (map (fun c => [c]) letters) (-1) chosen = (-1, chosen).
Proof.
  intro Hnone. induction letters as [|u letters IH]; cbn [map priority_loop].
  - reflexivity.
  - rewrite indexOf_absent by (apply Hnone; now left).
    cbn [Z.eqb negb]. apply IH.
    intros u' Hu'. apply Hnone. now right.
Qed.

Lemma fallback_class u :
  class_mem fallback_vowels u = true <-> In u fallback_letters.
Proof.
  unfold class_mem, fallback_vowels, fallback_letters.
  cbn [existsb item_mem In].
  repeat rewrite orb_true_iff. repeat rewrite Z.eqb_eq.
  split; intros H; repeat destruct H as [H|H]; subst; auto 10;
    try discriminate; contradiction.
Qed.

Lemma filter_none (p : Z -> bool) post :
  (forall u, In u post -> p u = false) -> filter p post = [].
Proof.
  intro H. induction post as [|u post IH]; cbn [filter]; [reflexivity|].
  rewrite H by now left. apply IH. intros; apply H; now right.
Qed.

Lemma match_all_rightmost pre c post :
  In c fallback_letters ->
  (forall u, In u fallback_letters -> ~ In u post) ->
  exists vowelMatch,
    match_all_class fallback_vowels (pre ++ c :: post) = Some vowelMatch
    /\ last_elem vowelMatch = [c].
Proof.
  intros Hc Hpost. unfold match_all_class.
  rewrite filter_app. cbn [filter].
  replace (class_mem fallback_vowels c) with true
    by (symmetry; now apply fallback_class).
  rewrite (filter_none _ post).
  2:{ intros u Hu. destruct (class_mem fallback_vowels u) eqn:E; [|reflexivity].
      apply fallback_class in E. now apply Hpost in E. }
  destruct (filter (class_mem fallback_vowels) pre ++ [c]) as [|m ms] eqn:E.
  - now apply app_eq_nil in E.
  - rewrite <- E. eexists; split; [reflexivity|].
    unfold last_elem. rewrite map_app. cbn [map]. apply last_last.
Qed.

Lemma match_all_none base :
  (forall u, In u fallback_letters -> ~ In u base) ->
  match_all_class fallback_vowels base = None.
Proof.
  intro H. unfold match_all_class. rewrite filter_none; [reflexivity|].
  intros u Hu. destruct (class_mem fallback_vowels u) eqn:E; [|reflexivity].
  apply fallback_class in E. now apply H in E.
Qed.

Lemma tone_in_range tone :
  1 <= tone <= 4 -> (tone <? 1) || (tone >? 4) = false.
Proof. intros. apply orb_false_iff. split; [apply Z.ltb_ge|rewrite Z.gtb_ltb; apply Z.ltb_ge]; lia. Qed.

(** Marking at a chosen index: the last statement of [addToneMark]. *)
Lemma mark_at pre v post tone :
  (if negb (JS.length pre =? -1) then
     match property toneMap [v] with
     | Some marks =>
       slice (pre ++ v :: post) 0 (JS.length pre) ++ element_text marks (tone - 1)
         ++ slice_from (pre ++ v :: post) (JS.length pre + 1)
     | None => pre ++ v :: post
     end
   else pre ++ v :: post) = pre ++ marked v tone ++ post.
Proof.
  pose proof (length_nonneg pre).
  destruct (Z.eqb_spec (JS.length pre) (-1)); [lia|]. cbn [negb].
  unfold marked. destruct (property toneMap [v]); [|reflexivity].
  now rewrite slice_prefix, slice_from_suffix.
Qed.

(** A letter of the priority list that occurs, no letter before it in the
    list occurring: its leftmost occurrence is marked. *)
Lemma addToneMark_priority base tone before v after pre post :
  1 <= tone <= 4 ->
  priority_letters = before ++ v :: after ->
  (forall u, In u before -> ~ In u base) ->
  base = pre ++ v :: post -> ~ In v pre ->
  addToneMark base tone = pre ++ marked v tone ++ post.
Proof.
  intros Htone Hprio Hbefore -> Hleft.
  pose proof (length_nonneg pre).
  unfold addToneMark. rewrite tone_in_range by assumption.
  rewrite vowelsOrder_units, Hprio.
  rewrite (priority_loop_found _ _ _ _ (JS.length pre));
    [|assumption|now apply indexOf_leftmost|lia].
  destruct (Z.eqb_spec (JS.length pre) (-1)); [lia|].
  apply mark_at.
Qed.

(** No letter of the priority list occurring: the rightmost letter of the
    fallback is marked. *)
Lemma addToneMark_fallback base tone pre c post :
  1 <= tone <= 4 ->
  (forall u, In u priority_letters -> ~ In u base) ->
  base = pre ++ c :: post -> In c fallback_letters ->
  (forall u, In u fallback_letters -> ~ In u post) ->
  addToneMark base tone = pre ++ marked c tone ++ post.
Proof.
  intros Htone Hnone -> Hc Hpost.
  unfold addToneMark. rewrite tone_in_range by assumption.
  rewrite vowelsOrder_units, priority_loop_none by assumption.
  cbn [Z.eqb].
  destruct (match_all_rightmost pre c post Hc Hpost) as (vm & -> & ->).
  rewrite lastIndexOf_rightmost by (now apply Hpost).
  apply mark_at.
Qed.

(** No markable letter at all: the syllable is returned as it is. *)
Lemma addToneMark_no_vowel base tone :
  (forall u, In u markable_letters -> ~ In u base) ->
  addToneMark base tone = base.
Proof.
  intro Hnone. unfold addToneMark.
  destruct ((tone <? 1) || (tone >? 4)); [reflexivity|].
  rewrite vowelsOrder_units, priority_loop_none.
  2:{ intros u Hu. apply Hnone. unfold markable_letters. apply in_or_app. now left. }
  cbn [Z.eqb]. rewrite match_all_none; [reflexivity|].
  intros u Hu. apply Hnone. unfold markable_letters. apply in_or_app. now right.
Qed.

End ToneMarkFacts.

Section Occurrences.

Implicit Types (base pre post : jsstring) (v c tone : Z).

(** The first letter of a list that occurs in the string. *)
Lemma first_occurring (letters : list Z) base :
  (exists u, In u letters /\ In u base) ->
  exists before v after,
    letters = before ++ v :: after /\
    (forall u, In u before -> ~ In u base) /\ In v base.
Proof.
  induction letters as [|a letters IH]; intros (u & Hu & Hb).
  - destruct Hu.
  - destruct (in_dec Z.eq_dec a base) as [Ha|Ha].
    + exists [], a, letters. repeat split; [intros ? []|assumption].
    + destruct IH as (before & v & after & -> & Hbefore & Hv).
      { exists u. split; [|assumption].
        destruct Hu as [->|Hu]; [contradiction|assumption]. }
      exists (a :: before), v, after. repeat split; [|assumption].
      intros u' [<-|Hu']; [assumption|now apply Hbefore].
Qed.

Lemma leftmost_split v base :
  In v base -> exists pre post, base = pre ++ v :: post /\ ~ In v pre.
Proof.
  induction base as [|a base IH]; intros Hv; [destruct Hv|].
  destruct (Z.eq_dec a v) as [->|Hne].
  - exists [], base. split; [reflexivity|intros []].
  - destruct Hv as [Hv|Hv]; [contradiction|].
    destruct (IH Hv) as (pre & post & -> & Hpre).
    exists (a :: pre), post. split; [reflexivity|].
    intros [H|H]; [contradiction|now apply Hpre].
Qed.

Lemma rightmost_split (letters : list Z) base :
  (exists u, In u letters /\ In u base) ->
  exists pre c post,
    base = pre ++ c :: post /\ In c letters /\
    (forall u, In u letters -> ~ In u post).
Proof.
  induction base as [|a base IH]; intros (u & Hu & Hb); [destruct Hb|].
  destruct (existsb (fun x => if in_dec Z.eq_dec x letters then true else false) base)
    eqn:E.
  - apply existsb_exists in E. destruct E as (x & Hx & Hin).
    destruct (in_dec Z.eq_dec x letters) as [Hl|]; [|discriminate].
    destruct IH as (pre & c & post & -> & Hc & Hpost); [now exists x|].
    now exists (a :: pre), c, post.
  - assert (Hnone : forall x, In x letters -> ~ In x base).
    { intros x Hx Hin.
      assert (existsb (fun x => if in_dec Z.eq_dec x letters then true else false) base = true)
        as E'; [|congruence].
      apply existsb_exists. exists x. split; [assumption|].
      now destruct (in_dec Z.eq_dec x letters). }
    destruct Hb as [->|Hb]; [|now apply Hnone in Hb].
    now exists [], u, base.
Qed.

(** The table holds, for each markable letter and each tone, the letter
    with the combining character of the tone. *)
Lemma marked_decomposition v tone :
  In v markable_letters -> 1 <= tone <= 4 ->
  exists m, marked v tone = [m] /\ m <> v /\
            canonical_decomposition m = Some (v, combining_mark tone).
Proof.
  intros Hv Htone.
  assert (tone = 1 \/ tone = 2 \/ tone = 3 \/ tone = 4) as Ht by lia.
  unfold markable_letters, priority_letters, fallback_letters in Hv.
  cbn [app In] in Hv.
  repeat destruct Hv as [Hv|Hv]; try contradiction; subst v;
    destruct Ht as [ -> | [ -> | [ -> | -> ] ] ];
    (eexists; split; [vm_compute; reflexivity|split; [discriminate|reflexivity]]).
Qed.

End Occurrences.

(** ** Properties of the romanization matcher *)

Section MatcherFacts.

Implicit Types (s base rest : jsstring) (c d : Z).

Lemma units_between_spec (f : Z -> bool) lo hi :
  existsb f (units_between lo hi) = true <->
  exists d, lo <= d <= hi /\ f d = true.
Proof.
  unfold units_between. rewrite existsb_exists. split.
  - intros (d & Hin & Hf). apply in_map_iff in Hin.
    destruct Hin as (k & <- & Hk). apply in_seq in Hk.
    exists (lo + Z.of_nat k). split; [lia|assumption].
  - intros (d & Hd & Hf). exists d. split; [|assumption].
    apply in_map_iff. exists (Z.to_nat (d - lo)). split; [lia|].
    apply in_seq. lia.
Qed.

(** The class [[a-züÜ]] under the flag [i]: the letters of a romanization. *)
Lemma letters_ci c : class_mem_ci pinyin_letters c = is_pinyin_letter c.
Proof.
  apply eq_true_iff_eq.
  unfold class_mem_ci, pinyin_letters, is_pinyin_letter.
  cbn [existsb item_mem_ci]. rewrite orb_false_r.
  rewrite !orb_true_iff, units_between_spec, !andb_true_iff.
  rewrite !Z.eqb_eq, !Z.leb_le.
  unfold canonicalize.
  split.
  - intros [(d & Hd & H)|[H|H]]; revert H.
    + replace ((97 <=? d) && (d <=? 122)) with true
        by (symmetry; apply andb_true_iff; split; apply Z.leb_le; lia).
      rewrite Z.eqb_eq.
      destruct ((97 <=? c) && (c <=? 122)) eqn:E.
      * apply andb_true_iff in E. rewrite !Z.leb_le in E. lia.
      * destruct (Z.eqb_spec c 0xFC); lia.
    + cbn. destruct ((97 <=? c) && (c <=? 122)) eqn:E.
      * apply andb_true_iff in E. rewrite !Z.leb_le in E. lia.
      * destruct (Z.eqb_spec c 0xFC); lia.
    + cbn. destruct ((97 <=? c) && (c <=? 122)) eqn:E.
      * apply andb_true_iff in E. rewrite !Z.leb_le in E. lia.
      * destruct (Z.eqb_spec c 0xFC); lia.
  - intros [[[H|H]|H]|H].
    + left. exists c. split; [lia|]. apply Z.eqb_refl.
    + left. exists (c + 32). split; [lia|].
      replace ((97 <=? c + 32) && (c + 32 <=? 122)) with true
        by (symmetry; apply andb_true_iff; split; apply Z.leb_le; lia).
      replace ((97 <=? c) && (c <=? 122)) with false
        by (symmetry; apply andb_false_iff; left; apply Z.leb_gt; lia).
      destruct (Z.eqb_spec c 0xFC); [lia|]. apply Z.eqb_eq. lia.
    + subst c. right. left. reflexivity.
    + subst c. right. right. reflexivity.
Qed.

Lemma digit_class d :
  class_mem decimal_digit d = true <-> 48 <= d <= 57.
Proof.
  unfold class_mem, decimal_digit. cbn [existsb item_mem].
  rewrite orb_false_r, andb_true_iff, !Z.leb_le. tauto.
Qed.

Lemma digit_not_letter d :
  48 <= d <= 57 -> is_pinyin_letter d = false.
Proof.
  intro H. unfold is_pinyin_letter.
  repeat (apply orb_false_iff; split);
    try (apply andb_false_iff; left; apply Z.leb_gt; lia);
    apply Z.eqb_neq; lia.
Qed.

Lemma span_split (p : Z -> bool) s :
  s = fst (span p s) ++ snd (span p s) /\
  forallb p (fst (span p s)) = true /\
  match snd (span p s) with [] => True | d :: _ => p d = false end.
Proof.
  induction s as [|c s IH]; cbn [span].
  - now cbn.
  - destruct (p c) eqn:E.
    + destruct (span p s) as [a b]. cbn [fst snd] in *.
      destruct IH as (-> & Ha & Hb). cbn [forallb]. rewrite E.
      now repeat split.
    + cbn [fst snd forallb]. now repeat split.
Qed.

Lemma span_exact (p : Z -> bool) base rest :
  forallb p base = true ->
  match rest with [] => True | d :: _ => p d = false end ->
  span p (base ++ rest) = (base, rest).
Proof.
  intros Hbase Hrest. induction base as [|c base IH]; cbn [app].
  - destruct rest as [|d rest]; cbn [span]; [reflexivity|].
    now rewrite Hrest.
  - cbn [forallb] in Hbase. apply andb_true_iff in Hbase.
    destruct Hbase as [Hc Hbase]. cbn [span]. rewrite Hc.
    now rewrite (IH Hbase).
Qed.

Lemma forallb_letters_ci base :
  forallb (class_mem_ci pinyin_letters) base = forallb is_pinyin_letter base.
Proof.
  induction base as [|c base IH]; cbn [forallb]; [reflexivity|].
  now rewrite letters_ci, IH.
Qed.

Lemma match_pinyin_letters base :
  base <> [] -> forallb is_pinyin_letter base = true ->
  match_pinyin base = Some (base, None).
Proof.
  intros Hne Hl. unfold match_pinyin.
  rewrite <- (app_nil_r base) at 1.
  rewrite span_exact.
  - destruct base; [contradiction|reflexivity].
  - now rewrite forallb_letters_ci.
  - exact I.
Qed.

Lemma match_pinyin_digit base d :
  base <> [] -> forallb is_pinyin_letter base = true -> 0 <= d <= 9 ->
  match_pinyin (base ++ [digit_unit d])
  = Some (base, Some [digit_unit d]).
Proof.
  intros Hne Hl Hd. unfold match_pinyin, digit_unit.
  rewrite span_exact.
  - destruct base; [contradiction|].
    replace (class_mem decimal_digit (48 + d)) with true; [reflexivity|].
    symmetry. apply digit_class. lia.
  - now rewrite forallb_letters_ci.
  - rewrite letters_ci. apply digit_not_letter. lia.
Qed.

(** The matcher accepts the strings of the shape with any decimal digit,
    and only them. *)
Lemma match_pinyin_shape s :
  has_shape 9 s <-> exists base toneStr, match_pinyin s = Some (base, toneStr).
Proof.
  split.
  - intros (base & digits & -> & Hne & Hl & [ -> | (d & -> & Hd) ]).
    + rewrite app_nil_r. eexists _, _. now apply match_pinyin_letters.
    + eexists _, _. now apply match_pinyin_digit.
  - intros (base & toneStr & H). unfold match_pinyin in H.
    destruct (span_split (class_mem_ci pinyin_letters) s) as (Hs & Ha & Hb).
    destruct (span (class_mem_ci pinyin_letters) s) as [a b].
    cbn [fst snd] in *.
    rewrite forallb_letters_ci in Ha.
    destruct a as [|a0 a]; [discriminate|].
    destruct b as [|d [|? ?]]; [| |discriminate].
    + exists (a0 :: a), []. repeat split; [assumption|discriminate|assumption|now left].
    + destruct (class_mem decimal_digit d) eqn:E; [|discriminate].
      apply digit_class in E.
      exists (a0 :: a), [d]. repeat split; [assumption|discriminate|assumption|].
      right. exists (d - 48). unfold digit_unit. split; [f_equal; lia|lia].
Qed.

Lemma match_pinyin_none s : ~ has_shape 9 s -> match_pinyin s = None.
Proof.
  intro H. destruct (match_pinyin s) as [[base toneStr]|] eqn:E; [|reflexivity].
  exfalso. apply H. apply match_pinyin_shape. now exists base, toneStr.
Qed.

Lemma parseInt10_digit d : 0 <= d <= 9 -> parseInt10 [digit_unit d] = d.
Proof.
  intro Hd. unfold parseInt10, digit_unit. cbn [parse_digits].
  replace (class_mem decimal_digit (48 + d)) with true
    by (symmetry; apply digit_class; lia).
  lia.
Qed.

Lemma getAccentedColoredPinyin_digit base d st :
  base <> [] -> forallb is_pinyin_letter base = true -> 0 <= d <= 9 ->
  getAccentedColoredPinyin (base ++ [digit_unit d]) st
  = (addToneMark base d, colorFor d st).
Proof.
  intros Hne Hl Hd. unfold getAccentedColoredPinyin.
  rewrite match_pinyin_digit by assumption.
  change (match Some [digit_unit d] with
          | Some ((_ :: _) as digits) => parseInt10 digits
          | _ => 0 end) with (parseInt10 [digit_unit d]).
  now rewrite parseInt10_digit.
Qed.

Lemma getAccentedColoredPinyin_letters base st :
  base <> [] -> forallb is_pinyin_letter base = true ->
  getAccentedColoredPinyin base st = (base, tone0 st).
Proof.
  intros Hne Hl. unfold getAccentedColoredPinyin.
  now rewrite match_pinyin_letters.
Qed.

End MatcherFacts.

(** ** Properties of the scanning loop *)

Section ScanFacts.

Variable pinyin : jsstring -> list jsstring.

Implicit Types (text char : jsstring) (pos to : Z) (w : World)
  (builder : RangeSetBuilder).

(** A turn of the loop, run: the world is left as it was. *)
Lemma loop_body_run text pos builder w :
  loop_body pinyin text pos builder w =
  (match at_index text pos with
   | None => TypeError
   | Some char =>
     Normal (pos + charSize_of char,
             if isChineseChar char
             then add builder pos (pos + charSize_of char)
                      (decoration_for pinyin (settings w) char)
             else builder)
   end, w).
Proof.
  unfold loop_body. destruct (at_index text pos) as [char|]; [|reflexivity].
  destruct (isChineseChar char); reflexivity.
Qed.

Lemma at_index_some text pos char :
  at_index text pos = Some char ->
  0 <= pos < JS.length text /\
  exists c, char = [c] /\ nth_error text (Z.to_nat pos) = Some c.
Proof.
  unfold at_index. destruct ((0 <=? pos) && (pos <? JS.length text)) eqn:E;
    [|discriminate].
  apply andb_true_iff in E. destruct E as [H0 H1].
  apply Z.leb_le in H0. apply Z.ltb_lt in H1.
  destruct (nth_error text (Z.to_nat pos)) as [c|]; [|discriminate].
  cbn [option_map]. intros [= <-]. split; [lia|]. now exists c.
Qed.

Lemma at_index_none text pos :
  at_index text pos = None -> pos < 0 \/ JS.length text <= pos.
Proof.
  unfold at_index. destruct ((0 <=? pos) && (pos <? JS.length text)) eqn:E.
  - apply andb_true_iff in E. destruct E as [H0 H1].
    apply Z.leb_le in H0. apply Z.ltb_lt in H1.
    destruct (nth_error text (Z.to_nat pos)) eqn:N; [discriminate|].
    apply nth_error_None in N. unfold JS.length in H1. lia.
  - intros _. apply andb_false_iff in E.
    destruct E as [E|E]; [apply Z.leb_gt in E|apply Z.ltb_ge in E]; lia.
Qed.

Lemma charSize_of_positive char : 1 <= charSize_of char <= 2.
Proof.
  unfold charSize_of. destruct (codePointAt0 char) as [cp|]; [|lia].
  destruct (cp >? 0xFFFF); lia.
Qed.

Lemma isChineseChar_unit c :
  isChineseChar [c] = true <-> 0x4E00 <= c <= 0x9FFF.
Proof.
  unfold isChineseChar, test_class, class_mem. cbn [existsb item_mem].
  rewrite !orb_false_r, andb_true_iff, !Z.leb_le. tauto.
Qed.

(** The width computed for a Chinese character is one unit. *)
Lemma charSize_of_chinese c : isChineseChar [c] = true -> charSize_of [c] = 1.
Proof.
  intro H. apply isChineseChar_unit in H.
  unfold charSize_of, codePointAt0.
  assert (Hgt : (c >? 0xFFFF) = false)
    by (rewrite Z.gtb_ltb; apply Z.ltb_ge; lia).
  destruct (is_leading_surrogate c); now rewrite Hgt.
Qed.

(** The width computed for one code unit is one unit, whatever the unit. *)
Lemma charSize_of_unit c : is_code_unit c = true -> charSize_of [c] = 1.
Proof.
  intro H. unfold is_code_unit in H. apply andb_true_iff in H.
  destruct H as [_ H]. apply Z.leb_le in H.
  unfold charSize_of, codePointAt0.
  assert (Hgt : (c >? 0xFFFF) = false)
    by (rewrite Z.gtb_ltb; apply Z.ltb_ge; lia).
  destruct (is_leading_surrogate c); now rewrite Hgt.
Qed.

Lemma scan_final fuel text to pos builder w :
  final (scan pinyin fuel text to pos builder w) = w.
Proof.
  revert pos builder. induction fuel as [|fuel IH]; intros pos builder;
    cbn [scan]; destruct (pos <? to); try reflexivity.
  unfold bind. rewrite loop_body_run.
  destruct (at_index text pos) as [char|]; [|reflexivity].
  apply IH.
Qed.

Lemma scan_result_settings fuel text to pos builder w1 w2 :
  settings w1 = settings w2 ->
  result (scan pinyin fuel text to pos builder w1)
  = result (scan pinyin fuel text to pos builder w2).
Proof.
  intro Hst. revert pos builder. induction fuel as [|fuel IH]; intros pos builder;
    cbn [scan]; destruct (pos <? to); try reflexivity.
  unfold bind. rewrite !loop_body_run, Hst.
  destruct (at_index text pos) as [char|]; [|reflexivity].
  apply IH.
Qed.

Lemma chain_weaken lo lo' hi ds : lo' <= lo -> chain lo hi ds -> chain lo' hi ds.
Proof. destruct ds as [|d ds]; cbn [chain]; [trivial|]. intros ? (? & ? & ? & ?). repeat split; try assumption; lia. Qed.

(** What the loop leaves: the ranges it was given, followed by a chain of
    ranges over Chinese characters from [pos] on; an exception only when
    the range leaves the text; never a lack of fuel. *)
Lemma scan_spec fuel text to pos builder w :
  (Z.to_nat (to - pos) <= fuel)%nat ->
  match result (scan pinyin fuel text to pos builder w) with
  | Normal ds =>
    exists news, ds = builder ++ news /\ chain pos to news /\
                 Forall (annotates pinyin text (settings w)) news
  | TypeError => pos < to /\ (pos < 0 \/ JS.length text < to)
  | OutOfFuel => False
  end.
Proof.
  revert pos builder. induction fuel as [|fuel IH]; intros pos builder Hfuel;
    cbn [scan]; destruct (Z.ltb_spec pos to) as [Hlt|Hge];
    try (exists []; rewrite app_nil_r; now repeat split); [lia|].
  unfold bind. rewrite loop_body_run.
  destruct (at_index text pos) as [char|] eqn:Hat.
  - pose proof (charSize_of_positive char) as Hsize.
    destruct (at_index_some _ _ _ Hat) as (Hpos & c & -> & Hnth).
    cbn [fst snd].
    specialize (IH (pos + charSize_of [c])
                   (if isChineseChar [c]
                    then add builder pos (pos + charSize_of [c])
                             (decoration_for pinyin (settings w) [c])
                    else builder)).
    destruct (result (scan pinyin fuel text to (pos + charSize_of [c]) _ w))
      as [ds| |] eqn:R.
    + destruct IH as (news & -> & Hchain & Hall); [lia|].
      destruct (isChineseChar [c]) eqn:Hc.
      * rewrite (charSize_of_chinese c Hc) in *.
        unfold add. rewrite <- app_assoc. cbn [app].
        eexists; split; [reflexivity|]. split.
        -- cbn [chain r_from r_to]. repeat split; try lia. assumption.
        -- constructor; [|assumption].
           exists [c]. cbn [r_from r_to value]. now repeat split.
      * exists news. repeat split; [|assumption].
        eapply chain_weaken; [|eassumption]. lia.
    + destruct IH as (Hlt' & Hout); [lia|]. split; [lia|]. lia.
    + apply IH. lia.
  - cbn [result fst]. apply at_index_none in Hat. split; [assumption|]. lia.
Qed.

Lemma computeDecorations_run w :
  computeDecorations pinyin w =
  (match result (scan pinyin (Z.to_nat (to_of w - from_of w)) (text_of w)
                      (to_of w) (from_of w) new_builder w) with
   | Normal builder => Normal (finish builder)
   | TypeError => TypeError
   | OutOfFuel => OutOfFuel
   end, w).
Proof.
  unfold computeDecorations, bind, read_doc, read_viewport, ret.
  fold (text_of w) (from_of w) (to_of w).
  pose proof (scan_final (Z.to_nat (to_of w - from_of w)) (text_of w)
                (to_of w) (from_of w) new_builder w) as Hfin.
  unfold final, result in *.
  destruct (scan pinyin _ _ _ _ _ w) as [[b| |] w']; cbn [fst snd] in *;
    now subst w'.
Qed.

End ScanFacts.

(** ** Order and extent of the decorations *)

Section ChainFacts.

Lemma chain_ordered lo hi ds :
  chain lo hi ds ->
  strictly_increasing_starts ds /\ pairwise_disjoint ds /\
  Forall (fun d => lo <= r_from d /\ r_to d <= hi) ds.
Proof.
  revert lo. induction ds as [|d ds IH]; intros lo; cbn [chain].
  - intros _. repeat split; constructor.
  - intros (Hlo & Hd & Hhi & Hrest).
    destruct (IH _ Hrest) as (Hs & Hp & Hb).
    repeat split.
    + constructor; [assumption|].
      eapply Forall_impl; [|exact Hb]. cbn beta. intros d' (? & ?). lia.
    + constructor; [|assumption].
      eapply Forall_impl; [|exact Hb]. cbn beta. intros d' (? & ?). lia.
    + constructor; [lia|].
      eapply Forall_impl; [|exact Hb]. cbn beta. intros d' (? & ?). lia.
Qed.

(** A unit that is no surrogate is a character of its own, wherever it
    stands in the text. *)
Lemma character_spans_unit (n : nat) :
  forall (s : jsstring) (pos0 : Z) (k : nat) (c : Z),
    (List.length s <= n)%nat ->
    nth_error s k = Some c ->
    is_leading_surrogate c = false -> is_trailing_surrogate c = false ->
    In (pos0 + Z.of_nat k, pos0 + Z.of_nat k + 1) (character_spans pos0 s).
Proof.
  induction n as [|n IH]; intros s pos0 k c Hlen Hnth Hlead Htrail.
  - destruct s; [destruct k; discriminate|cbn in Hlen; lia].
  - destruct s as [|c0 rest]; [destruct k; discriminate|].
    cbn [List.length] in Hlen.
    destruct k as [|k].
    + cbn [nth_error] in Hnth. injection Hnth as ->.
      cbn [character_spans]. rewrite Hlead. left. f_equal; lia.
    + cbn [nth_error] in Hnth.
      assert (Hrest : In (pos0 + Z.of_nat (S k), pos0 + Z.of_nat (S k) + 1)
                         (character_spans (pos0 + 1) rest)).
      { replace (pos0 + Z.of_nat (S k)) with (pos0 + 1 + Z.of_nat k) by lia.
        apply (IH rest (pos0 + 1) k c); [lia|assumption..]. }
      cbn [character_spans].
      destruct (is_leading_surrogate c0); [|now right].
      destruct rest as [|d rest']; [destruct k; discriminate|].
      destruct (is_trailing_surrogate d) eqn:Hd; [|now right].
      destruct k as [|k].
      * cbn [nth_error] in Hnth. injection Hnth as ->. congruence.
      * cbn [nth_error] in Hnth. right.
        replace (pos0 + Z.of_nat (S (S k))) with (pos0 + 2 + Z.of_nat k) by lia.
        apply (IH rest' (pos0 + 2) k c); [cbn [List.length] in Hlen; lia|assumption..].
Qed.

Lemma chinese_not_surrogate c :
  isChineseChar [c] = true ->
  is_leading_surrogate c = false /\ is_trailing_surrogate c = false.
Proof.
  intro H. apply isChineseChar_unit in H.
  unfold is_leading_surrogate, is_trailing_surrogate.
  split; apply andb_false_iff; left; apply Z.leb_gt; lia.
Qed.

Lemma annotates_covers pinyin text st d :
  annotates pinyin text st d -> covers_one_character text d.
Proof.
  intros (char & Hat & Hc & Hto & _).
  destruct (at_index_some _ _ _ Hat) as (Hpos & c & -> & Hnth).
  destruct (chinese_not_surrogate c Hc) as (Hl & Ht).
  unfold covers_one_character. rewrite Hto.
  pose proof (character_spans_unit (List.length text) text 0
                (Z.to_nat (r_from d)) c (le_n _) Hnth Hl Ht) as H.
  rewrite Z2Nat.id in H by lia. exact H.
Qed.

End ChainFacts.

(** ** The pass as a whole *)

Section PassFacts.

Variable pinyin : jsstring -> list jsstring.

Lemma computeDecorations_final w :
  final (computeDecorations pinyin w) = w.
Proof. now rewrite computeDecorations_run. Qed.

Lemma computeDecorations_agree w1 w2 :
  view w1 = view w2 -> settings w1 = settings w2 ->
  result (computeDecorations pinyin w1) = result (computeDecorations pinyin w2).
Proof.
  intros Hv Hs. rewrite !computeDecorations_run. cbn [result fst].
  unfold text_of, from_of, to_of. rewrite Hv.
  now rewrite (scan_result_settings pinyin _ _ _ _ _ w1 w2 Hs).
Qed.

(** A completed pass: a chain of decorations over Chinese characters of the
    range. *)
Lemma computeDecorations_spec w :
  match result (computeDecorations pinyin w) with
  | Normal ds => chain (from_of w) (to_of w) ds /\
                 Forall (annotates pinyin (text_of w) (settings w)) ds
  | TypeError => from_of w < to_of w /\
                 (from_of w < 0 \/ JS.length (text_of w) < to_of w)
  | OutOfFuel => False
  end.
Proof.
  rewrite computeDecorations_run. cbn [result fst].
  pose proof (scan_spec pinyin (Z.to_nat (to_of w - from_of w)) (text_of w)
                (to_of w) (from_of w) new_builder w (le_n _)) as H.
  destruct (result (scan pinyin _ _ _ _ _ w)) as [ds| |]; try assumption.
  destruct H as (news & -> & Hc & Ha). now unfold finish, new_builder.
Qed.

(** A range inside the text: the pass completes. *)
Lemma computeDecorations_completes w :
  0 <= from_of w -> to_of w <= JS.length (text_of w) ->
  exists ds, result (computeDecorations pinyin w) = Normal ds.
Proof.
  intros Hfrom Hto. pose proof (computeDecorations_spec w) as H.
  destruct (result (computeDecorations pinyin w)) as [ds| |].
  - now exists ds.
  - lia.
  - contradiction.
Qed.

Lemma update_final u w :
  final (update pinyin u w) =
  if docChanged u || viewportChanged u then
    match result (computeDecorations pinyin w) with
    | Normal ds => {| view := view w; settings := settings w; decorations := ds |}
    | _ => w
    end
  else w.
Proof.
  unfold update. destruct (docChanged u || viewportChanged u); [|reflexivity].
  unfold bind. rewrite computeDecorations_run. cbn [result fst].
  now destruct (result (scan pinyin _ _ _ _ _ w)).
Qed.

End PassFacts.

(** ** The tone mark *)

Lemma addToneMark_skip (base : jsstring) (tone : Z) :
  tone < 1 \/ 4 < tone -> addToneMark base tone = base.
Proof.
  intro H. unfold addToneMark.
  replace ((tone <? 1) || (tone >? 4)) with true; [reflexivity|].
  symmetry. apply orb_true_iff. rewrite Z.gtb_ltb, !Z.ltb_lt. lia.
Qed.

(** C1. For a tone from 1 to 4, [addToneMark] marks the leftmost occurrence
    of the first of a, A, o, O, e, E that occurs anywhere in the syllable;
    when none of the six occurs, it marks the rightmost occurrence of a
    letter among i, I, u, U, ü, Ü. So "hao" with tone 3 is "hǎo", "liu"
    with tone 2 is "liú" and "gui" with tone 4 is "guì". *)
Theorem addToneMark_vowel_selection (base : jsstring) (tone : Z) :
  1 <= tone <= 4 ->
  (forall before v after pre post,
      priority_letters = before ++ v :: after ->
      (forall u, In u before -> ~ In u base) ->
      base = pre ++ v :: post -> ~ In v pre ->
      addToneMark base tone = pre ++ marked v tone ++ post)
  /\
  (forall pre c post,
      (forall u, In u priority_letters -> ~ In u base) ->
      base = pre ++ c :: post -> In c fallback_letters ->
      (forall u, In u fallback_letters -> ~ In u post) ->
      addToneMark base tone = pre ++ marked c tone ++ post)
  /\ addToneMark (js "hao") 3 = js "hǎo"
  /\ addToneMark (js "liu") 2 = js "liú"
  /\ addToneMark (js "gui") 4 = js "guì".
Proof.
  intro Htone. split; [|split; [|repeat split]].
  - intros. now apply (addToneMark_priority base tone before v after).
  - intros. now apply addToneMark_fallback.
Qed.

Lemma addToneMark_vowel_selection_witness :
  1 <= 2 <= 4 /\
  addToneMark (js "xiong") 2 = js "xi" ++ marked 0x6F 2 ++ js "ng".
Proof.
  split; [lia|].
  refine (proj1 (addToneMark_vowel_selection (js "xiong") 2 _)
            [0x61; 0x41] 0x6F [0x4F; 0x65; 0x45] (js "xi") (js "ng") _ _ _ _).
  - lia.
  - reflexivity.
  - intros u [<-|[<-|[]]]; vm_compute; intuition discriminate.
  - reflexivity.
  - vm_compute; intuition discriminate.
Defined.

(** C2. For a tone from 1 to 4 and a syllable holding one of the twelve
    markable letters, the result is the syllable with one letter replaced
    by that letter with the mark of the tone (macron, acute, caron, grave),
    every other position unchanged; a syllable without markable letter is
    returned unchanged. *)
Theorem addToneMark_one_substitution (base : jsstring) (tone : Z) :
  1 <= tone <= 4 ->
  ((exists u, In u markable_letters /\ In u base) ->
   exists pre v m post,
     base = pre ++ v :: post /\ In v markable_letters /\
     addToneMark base tone = pre ++ m :: post /\ m <> v /\
     canonical_decomposition m = Some (v, combining_mark tone))
  /\
  ((forall u, In u markable_letters -> ~ In u base) ->
   addToneMark base tone = base).
Proof.
  intro Htone. split; [|apply addToneMark_no_vowel].
  intros (u & Hu & Hbase).
  destruct (existsb (fun x => if in_dec Z.eq_dec x base then true else false)
              priority_letters) eqn:E.
  - apply existsb_exists in E. destruct E as (x & Hx & Hin).
    destruct (in_dec Z.eq_dec x base) as [Hxb|]; [|discriminate].
    destruct (first_occurring priority_letters base) as
        (before & v & after & Hsplit & Hbefore & Hv); [now exists x|].
    destruct (leftmost_split v base Hv) as (pre & post & Heq & Hpre).
    assert (Hmark : In v markable_letters).
    { unfold markable_letters. apply in_or_app. left.
      rewrite Hsplit. apply in_elt. }
    destruct (marked_decomposition v tone Hmark Htone) as (m & Hm & Hne & Hdec).
    exists pre, v, m, post. repeat split; try assumption.
    rewrite (addToneMark_priority base tone before v after pre post);
      try assumption.
    now rewrite Hm.
  - assert (Hnone : forall x, In x priority_letters -> ~ In x base).
    { intros x Hx Hin.
      assert (existsb (fun x => if in_dec Z.eq_dec x base then true else false)
                priority_letters = true) as E'; [|congruence].
      apply existsb_exists. exists x. split; [assumption|].
      now destruct (in_dec Z.eq_dec x base). }
    assert (Hfb : In u fallback_letters).
    { unfold markable_letters in Hu. apply in_app_or in Hu.
      destruct Hu as [Hu|Hu]; [now apply Hnone in Hu|assumption]. }
    destruct (rightmost_split fallback_letters base) as
        (pre & c & post & Heq & Hc & Hpost); [now exists u|].
    assert (Hmark : In c markable_letters).
    { unfold markable_letters. apply in_or_app. now right. }
    destruct (marked_decomposition c tone Hmark Htone) as (m & Hm & Hne & Hdec).
    exists pre, c, m, post. repeat split; try assumption.
    rewrite (addToneMark_fallback base tone pre c post); try assumption.
    now rewrite Hm.
Qed.

Lemma addToneMark_one_substitution_witness :
  1 <= 4 <= 4 /\
  (exists u, In u markable_letters /\ In u (js "lüe")) /\
  exists pre v m post,
    js "lüe" = pre ++ v :: post /\ In v markable_letters /\
    addToneMark (js "lüe") 4 = pre ++ m :: post /\ m <> v /\
    canonical_decomposition m = Some (v, combining_mark 4).
Proof.
  assert (H : exists u, In u markable_letters /\ In u (js "lüe")).
  { exists 0x65. split; vm_compute; intuition. }
  split; [lia|]. split; [exact H|].
  apply (proj1 (addToneMark_one_substitution (js "lüe") 4 ltac:(lia)) H).
Defined.

(** C8. For a tone outside 1 to 4, zero included, [addToneMark] returns
    the syllable unchanged. *)
Theorem addToneMark_out_of_range (base : jsstring) (tone : Z) :
  tone < 1 \/ 4 < tone -> addToneMark base tone = base.
Proof. apply addToneMark_skip. Qed.

Lemma addToneMark_out_of_range_witness :
  (0 < 1 \/ 4 < 0) /\ addToneMark (js "hao") 0 = js "hao".
Proof.
  split; [left; lia|].
  apply (addToneMark_out_of_range (js "hao") 0). left; lia.
Defined.

(** ** The romanization *)

(** C4, as the code has it. An input that is not of the shape: one letter
    or more (ASCII letters, ü, Ü), then at most one decimal digit, any of
    0 to 9, is returned as it is with the neutral color; nothing is
    raised. An input ending with a digit above 4 is of the shape: "ma7"
    gives "ma", the digit dropped, with the neutral color. *)
Theorem unmatched_romanization_kept (numericPinyin : jsstring)
    (st : ToneColorSettings) :
  (~ has_shape 9 numericPinyin ->
   getAccentedColoredPinyin numericPinyin st = (numericPinyin, tone0 st))
  /\ has_shape 9 (js "ma7")
  /\ getAccentedColoredPinyin (js "ma7") st = (js "ma", tone0 st).
Proof.
  split; [|split].
  - intro H. unfold getAccentedColoredPinyin.
    now rewrite match_pinyin_none.
  - exists (js "ma"), (js "7"). repeat split; [discriminate|].
    right. exists 7. split; [reflexivity|lia].
  - reflexivity.
Qed.

Lemma unmatched_romanization_kept_witness :
  ~ has_shape 9 (js "ma12") /\
  getAccentedColoredPinyin (js "ma12") DEFAULT_SETTINGS
  = (js "ma12", js "gray").
Proof.
  assert (H : ~ has_shape 9 (js "ma12")).
  { intro H. apply match_pinyin_shape in H.
    destruct H as (b & t & H). vm_compute in H. discriminate. }
  split; [exact H|].
  apply (proj1 (unmatched_romanization_kept (js "ma12") DEFAULT_SETTINGS) H).
Defined.

(** C4, as stated, fails on "ma7": the string is not of the shape with a
    digit from 0 to 4, and the text returned for it is not "ma7". *)
Lemma ma7_not_kept :
  ~ has_shape 4 (js "ma7") /\
  accented (getAccentedColoredPinyin (js "ma7") DEFAULT_SETTINGS) <> js "ma7".
Proof.
  split; [|vm_compute; discriminate].
  intros (base & digits & Heq & Hne & Hl & [ -> | (d & -> & Hd) ]).
  - rewrite app_nil_r in Heq. subst base. vm_compute in Hl. discriminate.
  - change (js "ma7") with ([109; 97] ++ [55]) in Heq.
    apply app_inj_tail in Heq. destruct Heq as [_ Heq].
    unfold digit_unit in Heq. lia.
Qed.

(** C7. "ma1" to "ma4" take the colors [tone1] to [tone4] of the settings,
    "ma" and "ma0" take [tone0]; in general the digit that follows the
    letters selects the color: 1, 2, 3, 4 their own, any other [tone0]. *)
Theorem tone_color_resolution (st : ToneColorSettings) :
  color (getAccentedColoredPinyin (js "ma1") st) = tone1 st
  /\ color (getAccentedColoredPinyin (js "ma2") st) = tone2 st
  /\ color (getAccentedColoredPinyin (js "ma3") st) = tone3 st
  /\ color (getAccentedColoredPinyin (js "ma4") st) = tone4 st
  /\ color (getAccentedColoredPinyin (js "ma") st) = tone0 st
  /\ color (getAccentedColoredPinyin (js "ma0") st) = tone0 st
  /\ (forall base d,
        base <> [] -> forallb is_pinyin_letter base = true -> 0 <= d <= 9 ->
        color (getAccentedColoredPinyin (base ++ [digit_unit d]) st)
        = colorFor d st)
  /\ (forall base,
        base <> [] -> forallb is_pinyin_letter base = true ->
        color (getAccentedColoredPinyin base st) = colorFor 0 st).
Proof.
  repeat split.
  - intros base d Hne Hl Hd.
    now rewrite getAccentedColoredPinyin_digit.
  - intros base Hne Hl.
    now rewrite getAccentedColoredPinyin_letters.
Qed.

Lemma tone_color_resolution_witness :
  js "zhong" <> [] /\ forallb is_pinyin_letter (js "zhong") = true /\
  0 <= 1 <= 9 /\
  color (getAccentedColoredPinyin (js "zhong" ++ [digit_unit 1]) DEFAULT_SETTINGS)
  = js "blue".
Proof.
  assert (Hne : js "zhong" <> []) by discriminate.
  assert (Hl : forallb is_pinyin_letter (js "zhong") = true) by reflexivity.
  assert (Hd : 0 <= 1 <= 9) by lia.
  split; [exact Hne|]. split; [exact Hl|]. split; [exact Hd|].
  exact (proj1 (proj2 (proj2 (proj2 (proj2 (proj2 (proj2
           (tone_color_resolution DEFAULT_SETTINGS)))))))
           (js "zhong") 1 Hne Hl Hd).
Defined.

(** C10. Letters followed by one digit from 5 to 9 are matched; the text
    returned is the letters, without digit and without mark, and the color
    is [tone0]. *)
Theorem trailing_digit_5_to_9_stripped (base : jsstring) (d : Z)
    (st : ToneColorSettings) :
  base <> [] -> forallb is_pinyin_letter base = true -> 5 <= d <= 9 ->
  match_pinyin (base ++ [digit_unit d]) = Some (base, Some [digit_unit d])
  /\ getAccentedColoredPinyin (base ++ [digit_unit d]) st = (base, tone0 st).
Proof.
  intros Hne Hl Hd. split.
  - apply match_pinyin_digit; [assumption..|lia].
  - rewrite getAccentedColoredPinyin_digit by (try assumption; lia).
    rewrite addToneMark_skip by lia.
    unfold colorFor.
    destruct (Z.eqb_spec d 1); [lia|]. destruct (Z.eqb_spec d 2); [lia|].
    destruct (Z.eqb_spec d 3); [lia|]. destruct (Z.eqb_spec d 4); [lia|].
    reflexivity.
Qed.

Lemma trailing_digit_5_to_9_stripped_witness :
  js "ma" <> [] /\ forallb is_pinyin_letter (js "ma") = true /\ 5 <= 9 <= 9 /\
  getAccentedColoredPinyin (js "ma9") DEFAULT_SETTINGS = (js "ma", js "gray").
Proof.
  assert (Hne : js "ma" <> []) by discriminate.
  assert (Hl : forallb is_pinyin_letter (js "ma") = true) by reflexivity.
  assert (Hd : 5 <= 9 <= 9) by lia.
  split; [exact Hne|]. split; [exact Hl|]. split; [exact Hd|].
  exact (proj2 (trailing_digit_5_to_9_stripped (js "ma") 9 DEFAULT_SETTINGS
                  Hne Hl Hd)).
Defined.

(** ** The scan *)

(** C3, on the code. The text "𠀀" is one character, U+20000, written as
    the surrogate pair D840 DC00. At position 0 the loop takes [text[0]],
    the leading surrogate alone, whose code point is not above U+FFFF: the
    width computed is 1, and the turn ends at position 1, not 2. *)
Theorem surrogate_pair_scanned_by_unit (pinyin : jsstring -> list jsstring)
    (w : World) :
  codePointAt0 (js "𠀀") = Some 0x20000
  /\ at_index (js "𠀀") 0 = Some [0xD840]
  /\ charSize_of [0xD840] = 1
  /\ result (loop_body pinyin (js "𠀀") 0 new_builder w)
     = Normal (1, new_builder).
Proof. repeat split. Qed.

(** The width is 1 at every position of every text of 16-bit units. *)
Lemma charSize_always_one (text : jsstring) (pos : Z) (char : jsstring) :
  well_formed text = true -> at_index text pos = Some char ->
  charSize_of char = 1.
Proof.
  intros Hwf Hat.
  destruct (at_index_some _ _ _ Hat) as (_ & c & -> & Hnth).
  apply charSize_of_unit.
  unfold well_formed in Hwf. rewrite forallb_forall in Hwf.
  apply Hwf. eapply nth_error_In. eassumption.
Qed.

(** C5. The decorations of a pass have strictly increasing start offsets,
    do not overlap, lie within the range, and each covers exactly one
    character of the text. The pass always ends; it ends with an exception
    only for a non-empty range that leaves the text. *)
Theorem decorations_ordered_disjoint (pinyin : jsstring -> list jsstring)
    (w : World) :
  match result (computeDecorations pinyin w) with
  | Normal ds =>
    strictly_increasing_starts ds /\ pairwise_disjoint ds /\
    Forall (covers_one_character (text_of w)) ds /\
    Forall (within (viewport (view w))) ds
  | TypeError =>
    from_of w < to_of w /\ (from_of w < 0 \/ JS.length (text_of w) < to_of w)
  | OutOfFuel => False
  end.
Proof.
  pose proof (computeDecorations_spec pinyin w) as H.
  destruct (result (computeDecorations pinyin w)) as [ds| |]; try assumption.
  destruct H as (Hchain & Hann).
  destruct (chain_ordered _ _ _ Hchain) as (Hs & Hp & Hb).
  split; [exact Hs|]. split; [exact Hp|]. split; [|exact Hb].
  eapply Forall_impl; [|exact Hann]. intros d. apply annotates_covers.
Qed.

(** C6. [isChineseChar] holds of a single character exactly when its code
    point is between U+4E00 and U+9FFF; every decoration of a pass stands
    on a unit for which it holds; and the full scan of "I love 中文" gives
    two decorations, over 中 at [7, 8) and over 文 at [8, 9). *)
Theorem annotation_only_on_chinese (pinyin : jsstring -> list jsstring) :
  (forall cp, isChineseChar (utf16_encode cp) = true <-> 0x4E00 <= cp <= 0x9FFF)
  /\
  (forall w ds,
      result (computeDecorations pinyin w) = Normal ds ->
      Forall (fun d => exists char,
                  at_index (text_of w) (r_from d) = Some char /\
                  isChineseChar char = true /\ r_to d = r_from d + 1) ds)
  /\
  (forall st old,
      result (computeDecorations pinyin
                {| view := {| doc := js "I love 中文";
                              viewport := {| vp_from := 0; vp_to := 9 |} |};
                   settings := st; decorations := old |})
      = Normal [ {| r_from := 7; r_to := 8;
                    value := decoration_for pinyin st (js "中") |};
                 {| r_from := 8; r_to := 9;
                    value := decoration_for pinyin st (js "文") |} ]).
Proof.
  split; [|split].
  - intro cp. unfold utf16_encode.
    destruct (Z.leb_spec cp 0xFFFF) as [Hle|Hgt].
    + apply isChineseChar_unit.
    + unfold isChineseChar, test_class, class_mem. cbn [existsb item_mem].
      rewrite !orb_false_r.
      assert (0 <= Z.shiftr (cp - 0x10000) 10) by (apply Z.shiftr_nonneg; lia).
      assert (0 <= Z.land (cp - 0x10000) 0x3FF) by (apply Z.land_nonneg; lia).
      split; [|lia].
      rewrite orb_true_iff, !andb_true_iff, !Z.leb_le. lia.
  - intros w ds Hres.
    pose proof (computeDecorations_spec pinyin w) as H. rewrite Hres in H.
    destruct H as (_ & Hann).
    eapply Forall_impl; [|exact Hann].
    intros d (char & Hat & Hc & Hto & _). now exists char.
  - intros st old. reflexivity.
Qed.

Lemma annotation_only_on_chinese_witness :
  result (computeDecorations sample_pinyin (sample_world "你好, world" 0 9))
  = Normal [ {| r_from := 0; r_to := 1;
                value := decoration_for sample_pinyin DEFAULT_SETTINGS (js "你") |};
             {| r_from := 1; r_to := 2;
                value := decoration_for sample_pinyin DEFAULT_SETTINGS (js "好") |} ]
  /\
  Forall (fun d => exists char,
              at_index (js "你好, world") (r_from d) = Some char /\
              isChineseChar char = true /\ r_to d = r_from d + 1)
         [ {| r_from := 0; r_to := 1;
              value := decoration_for sample_pinyin DEFAULT_SETTINGS (js "你") |};
           {| r_from := 1; r_to := 2;
              value := decoration_for sample_pinyin DEFAULT_SETTINGS (js "好") |} ].
Proof.
  assert (H : result (computeDecorations sample_pinyin
                        (sample_world "你好, world" 0 9))
              = Normal [ {| r_from := 0; r_to := 1;
                            value := decoration_for sample_pinyin DEFAULT_SETTINGS (js "你") |};
                         {| r_from := 1; r_to := 2;
                            value := decoration_for sample_pinyin DEFAULT_SETTINGS (js "好") |} ])
    by reflexivity.
  split; [exact H|].
  exact (proj1 (proj2 (annotation_only_on_chinese sample_pinyin)) _ _ H).
Defined.

(** C9. A pass is a function of the range, the text and the settings: two
    worlds with the same view and settings give the same outcome, whatever
    decorations the plugin value held before; the pass leaves the world as
    it found it; [update] changes nothing but the field [decorations], and
    a second [update] on the same view and settings changes nothing. *)
Theorem computeDecorations_pure_pass (pinyin : jsstring -> list jsstring)
    (v : EditorView) (st : ToneColorSettings) (old1 old2 : DecorationSet)
    (u : ViewUpdate) :
  let w1 := {| view := v; settings := st; decorations := old1 |} in
  let w2 := {| view := v; settings := st; decorations := old2 |} in
  result (computeDecorations pinyin w1) = result (computeDecorations pinyin w2)
  /\ final (computeDecorations pinyin w1) = w1
  /\ view (final (update pinyin u w1)) = v
  /\ settings (final (update pinyin u w1)) = st
  /\ final (update pinyin u (final (update pinyin u w1)))
     = final (update pinyin u w1).
Proof.
  intros w1 w2.
  assert (Hagree : forall old,
             result (computeDecorations pinyin
                       {| view := v; settings := st; decorations := old |})
             = result (computeDecorations pinyin w1)).
  { intro old. now apply computeDecorations_agree. }
  split; [symmetry; apply Hagree|].
  split; [apply computeDecorations_final|].
  rewrite !update_final.
  destruct (docChanged u || viewportChanged u); [|now repeat split].
  destruct (result (computeDecorations pinyin w1)) as [ds| |] eqn:R;
    cbn [view settings]; repeat split;
    try (rewrite R; reflexivity).
  change (view w1) with v. change (settings w1) with st.
  now rewrite Hagree.
Qed.

(** ** The pass, offset by offset *)

Section ExactScan.

Variable pinyin : jsstring -> list jsstring.

Implicit Types (text : jsstring) (pos from to : Z) (w : World)
  (builder : RangeSetBuilder).

Lemma positions_empty from to : to <= from -> positions from to = [].
Proof.
  intro H. unfold positions, units_between.
  replace (Z.to_nat (to - 1 - from + 1)) with 0%nat by lia. reflexivity.
Qed.

Lemma positions_step from to :
  from < to -> positions from to = from :: positions (from + 1) to.
Proof.
  intro H. unfold positions, units_between.
  replace (Z.to_nat (to - 1 - from + 1)) with (S (Z.to_nat (to - 1 - (from + 1) + 1)))
    by lia.
  cbn [seq map]. f_equal; [lia|].
  rewrite <- seq_shift, map_map. apply map_ext. intro k. lia.
Qed.

Lemma positions_split a b c :
  a <= b <= c -> positions a c = positions a b ++ positions b c.
Proof.
  intros [Hab Hbc].
  remember (Z.to_nat (b - a)) as n eqn:Hn. revert a Hab Hn.
  induction n as [|n IH]; intros a Hab Hn.
  - assert (a = b) as -> by lia. now rewrite (positions_empty b b) by lia.
  - rewrite (positions_step a c), (positions_step a b) by lia.
    cbn [app]. f_equal. apply IH; lia.
Qed.

Lemma positions_inside from to p : In p (positions from to) -> from <= p < to.
Proof.
  unfold positions, units_between. intro H. apply in_map_iff in H.
  destruct H as (k & <- & Hk). apply in_seq in Hk. lia.
Qed.

Lemma flat_map_ext_in {A B : Type} (f g : A -> list B) (l : list A) :
  (forall a, In a l -> f a = g a) -> flat_map f l = flat_map g l.
Proof.
  induction l as [|a l IH]; intro H; cbn [flat_map]; [reflexivity|].
  rewrite (H a) by now left. f_equal. apply IH. intros; apply H; now right.
Qed.

Lemma expected_step st text from to :
  from < to ->
  expected_decorations pinyin st text from to
  = decoration_at pinyin st text from
      ++ expected_decorations pinyin st text (from + 1) to.
Proof.
  intro H. unfold expected_decorations. now rewrite positions_step.
Qed.

Lemma at_index_inside text pos :
  0 <= pos < JS.length text ->
  exists c, at_index text pos = Some [c] /\ In c text.
Proof.
  intro H. destruct (at_index text pos) as [char|] eqn:E.
  - destruct (at_index_some _ _ _ E) as (_ & c & -> & Hnth).
    exists c. split; [reflexivity|]. eapply nth_error_In; eassumption.
  - apply at_index_none in E. lia.
Qed.

Lemma well_formed_unit text c :
  well_formed text = true -> In c text -> is_code_unit c = true.
Proof.
  unfold well_formed. rewrite forallb_forall. intros H Hc. now apply H.
Qed.

(** Inside the text the loop visits every offset, one by one. *)
Lemma scan_exact fuel text to pos builder w :
  well_formed text = true -> 0 <= pos -> to <= JS.length text ->
  (Z.to_nat (to - pos) <= fuel)%nat ->
  result (scan pinyin fuel text to pos builder w)
  = Normal (builder ++ expected_decorations pinyin (settings w) text pos to).
Proof.
  intros Hwf. revert pos builder.
  induction fuel as [|fuel IH]; intros pos builder Hpos Hto Hfuel;
    cbn [scan]; destruct (Z.ltb_spec pos to) as [Hlt|Hge];
    try (unfold expected_decorations; rewrite positions_empty by lia;
         cbn; now rewrite app_nil_r); [lia|].
  unfold bind. rewrite loop_body_run.
  destruct (at_index_inside text pos) as (c & Hat & Hin); [lia|].
  rewrite expected_step by assumption. unfold decoration_at. rewrite Hat.
  rewrite (charSize_of_unit c) by (now apply (well_formed_unit text)).
  cbn [fst snd]. rewrite IH by lia.
  destruct (isChineseChar [c]); [|reflexivity].
  unfold add. now rewrite <- app_assoc.
Qed.

(** A range that leaves the text ends in the exception. *)
Lemma scan_raises fuel text to pos builder w :
  well_formed text = true ->
  pos < to -> pos < 0 \/ JS.length text < to ->
  (Z.to_nat (to - pos) <= fuel)%nat ->
  result (scan pinyin fuel text to pos builder w) = TypeError.
Proof.
  intros Hwf. revert pos builder.
  induction fuel as [|fuel IH]; intros pos builder Hlt Hout Hfuel;
    cbn [scan]; destruct (Z.ltb_spec pos to) as [_|Hge]; try lia.
  unfold bind. rewrite loop_body_run.
  destruct (at_index text pos) as [char|] eqn:Hat; [|reflexivity].
  destruct (at_index_some _ _ _ Hat) as (Hin & c & -> & Hnth).
  rewrite (charSize_of_unit c)
    by (apply (well_formed_unit text); [assumption|eapply nth_error_In; eassumption]).
  cbn [fst snd]. apply IH; lia.
Qed.

Lemma computeDecorations_result w :
  result (computeDecorations pinyin w) =
  match result (scan pinyin (Z.to_nat (to_of w - from_of w)) (text_of w)
                     (to_of w) (from_of w) new_builder w) with
  | Normal builder => Normal (finish builder)
  | TypeError => TypeError
  | OutOfFuel => OutOfFuel
  end.
Proof. now rewrite computeDecorations_run. Qed.

Lemma computeDecorations_exact w :
  well_formed (text_of w) = true ->
  0 <= from_of w -> to_of w <= JS.length (text_of w) ->
  result (computeDecorations pinyin w)
  = Normal (expected_decorations pinyin (settings w) (text_of w)
              (from_of w) (to_of w)).
Proof.
  intros Hwf Hfrom Hto. rewrite computeDecorations_result.
  now rewrite scan_exact by (try assumption; lia).
Qed.

End ExactScan.

(** ** Further properties of the pass *)

(** X1. On a text of 16-bit units and a range inside it, the pass visits
    every offset of the range: its decorations are, in order, one range
    [[p, p + 1)] for each offset [p] that holds a Chinese character, with
    the decoration of that character, and nothing for the other offsets. *)
Theorem pass_decorates_each_chinese_offset
    (pinyin : jsstring -> list jsstring) (w : World) :
  well_formed (text_of w) = true ->
  0 <= from_of w -> to_of w <= JS.length (text_of w) ->
  result (computeDecorations pinyin w)
  = Normal (flat_map (decoration_at pinyin (settings w) (text_of w))
                     (positions (from_of w) (to_of w))).
Proof. apply computeDecorations_exact. Qed.

Lemma pass_decorates_each_chinese_offset_witness :
  well_formed (js "说中文 ok") = true /\ 0 <= 1 /\ 4 <= JS.length (js "说中文 ok") /\
  result (computeDecorations sample_pinyin (sample_world "说中文 ok" 1 4))
  = Normal [ {| r_from := 1; r_to := 2;
                value := {| style := js "color:blue;"; title := js "zhōng" |} |};
             {| r_from := 2; r_to := 3;
                value := {| style := js "color:green;"; title := js "wén" |} |} ].
Proof.
  assert (Hwf : well_formed (js "说中文 ok") = true) by reflexivity.
  assert (Hfrom : 0 <= 1) by lia.
  assert (Hto : 4 <= JS.length (js "说中文 ok")) by (vm_compute; discriminate).
  split; [exact Hwf|]. split; [exact Hfrom|]. split; [exact Hto|].
  exact (pass_decorates_each_chinese_offset sample_pinyin
           (sample_world "说中文 ok" 1 4) Hwf Hfrom Hto).
Defined.

(** X2. On a text of 16-bit units the pass raises the [TypeError] exactly
    when the range is not empty and starts before the text or ends after
    it; then nothing is returned. *)
Theorem pass_raises_iff_range_leaves_text
    (pinyin : jsstring -> list jsstring) (w : World) :
  well_formed (text_of w) = true ->
  (result (computeDecorations pinyin w) = TypeError <->
   from_of w < to_of w /\
   (from_of w < 0 \/ JS.length (text_of w) < to_of w)).
Proof.
  intro Hwf. split.
  - intro H. pose proof (computeDecorations_spec pinyin w) as S.
    now rewrite H in S.
  - intros (Hlt & Hout). rewrite computeDecorations_result.
    now rewrite scan_raises by (try assumption; lia).
Qed.

Lemma pass_raises_iff_range_leaves_text_witness :
  well_formed (js "中文") = true /\
  result (computeDecorations sample_pinyin (sample_world "中文" 1 3)) = TypeError.
Proof.
  assert (Hwf : well_formed (js "中文") = true) by reflexivity.
  split; [exact Hwf|].
  apply (proj2 (pass_raises_iff_range_leaves_text sample_pinyin
                  (sample_world "中文" 1 3) Hwf)).
  vm_compute. split; [reflexivity|]. right. reflexivity.
Defined.

(** X3. Scanning a range in two pieces gives the same decorations as
    scanning it at once: for offsets [a <= b <= c] inside a text of 16-bit
    units, the pass over [[a, c)] returns the decorations of [[a, b)]
    followed by those of [[b, c)]. *)
Theorem pass_splits_at_offset (pinyin : jsstring -> list jsstring)
    (w : World) (a b c : Z) :
  well_formed (text_of w) = true ->
  0 <= a -> a <= b -> b <= c -> c <= JS.length (text_of w) ->
  exists ds1 ds2,
    result (computeDecorations pinyin (with_viewport w a b)) = Normal ds1 /\
    result (computeDecorations pinyin (with_viewport w b c)) = Normal ds2 /\
    result (computeDecorations pinyin (with_viewport w a c)) = Normal (ds1 ++ ds2).
Proof.
  intros Hwf Ha Hab Hbc Hc.
  exists (expected_decorations pinyin (settings w) (text_of w) a b),
         (expected_decorations pinyin (settings w) (text_of w) b c).
  assert (E : forall x y, 0 <= x -> y <= JS.length (text_of w) ->
             result (computeDecorations pinyin (with_viewport w x y))
             = Normal (expected_decorations pinyin (settings w) (text_of w) x y)).
  { intros x y Hx Hy.
    apply (computeDecorations_exact pinyin (with_viewport w x y));
      [exact Hwf|exact Hx|exact Hy]. }
  split; [apply E; lia|]. split; [apply E; lia|].
  rewrite E by lia. unfold expected_decorations.
  now rewrite (positions_split a b c), flat_map_app by lia.
Qed.

Lemma pass_splits_at_offset_witness :
  well_formed (js "I love 中文") = true /\ 0 <= 0 /\ 0 <= 8 /\ 8 <= 9 /\
  9 <= JS.length (js "I love 中文") /\
  exists ds1 ds2,
    result (computeDecorations sample_pinyin (sample_world "I love 中文" 0 8))
    = Normal ds1 /\
    result (computeDecorations sample_pinyin (sample_world "I love 中文" 8 9))
    = Normal ds2 /\
    result (computeDecorations sample_pinyin (sample_world "I love 中文" 0 9))
    = Normal (ds1 ++ ds2).
Proof.
  assert (Hwf : well_formed (js "I love 中文") = true) by reflexivity.
  assert (H0 : 0 <= 0) by lia.
  assert (H1 : 0 <= 8) by lia.
  assert (H2 : 8 <= 9) by lia.
  assert (H3 : 9 <= JS.length (js "I love 中文")) by (vm_compute; discriminate).
  split; [exact Hwf|]. split; [exact H0|]. split; [exact H1|].
  split; [exact H2|]. split; [exact H3|].
  exact (pass_splits_at_offset sample_pinyin (sample_world "I love 中文" 0 9)
           0 8 9 Hwf H0 H1 H2 H3).
Defined.

(** X4. The decorations of a range depend on the text inside the range
    only: two texts of 16-bit units that hold the same units at every
    offset of a range lying inside both give the same decorations. *)
Theorem pass_ignores_text_outside_range (pinyin : jsstring -> list jsstring)
    (st : ToneColorSettings) (vp : Viewport) (text1 text2 : jsstring)
    (old1 old2 : DecorationSet) :
  well_formed text1 = true -> well_formed text2 = true ->
  0 <= vp_from vp ->
  vp_to vp <= JS.length text1 -> vp_to vp <= JS.length text2 ->
  (forall p, vp_from vp <= p < vp_to vp -> at_index text1 p = at_index text2 p) ->
  result (computeDecorations pinyin
            {| view := {| doc := text1; viewport := vp |};
               settings := st; decorations := old1 |})
  = result (computeDecorations pinyin
              {| view := {| doc := text2; viewport := vp |};
                 settings := st; decorations := old2 |}).
Proof.
  intros Hwf1 Hwf2 Hfrom Hto1 Hto2 Hsame.
  rewrite !computeDecorations_exact by assumption.
  unfold text_of, from_of, to_of. cbn [view doc viewport settings].
  f_equal. unfold expected_decorations.
  apply flat_map_ext_in. intros p Hp. apply positions_inside in Hp.
  unfold decoration_at. now rewrite Hsame.
Qed.

Lemma pass_ignores_text_outside_range_witness :
  well_formed (js "a中b") = true /\ well_formed (js "文中") = true /\
  result (computeDecorations sample_pinyin (sample_world "a中b" 1 2))
  = result (computeDecorations sample_pinyin (sample_world "文中" 1 2)).
Proof.
  assert (Hwf1 : well_formed (js "a中b") = true) by reflexivity.
  assert (Hwf2 : well_formed (js "文中") = true) by reflexivity.
  split; [exact Hwf1|]. split; [exact Hwf2|].
  apply (pass_ignores_text_outside_range sample_pinyin DEFAULT_SETTINGS
           {| vp_from := 1; vp_to := 2 |} (js "a中b") (js "文中") [] [] Hwf1 Hwf2).
  - cbn; lia.
  - vm_compute; discriminate.
  - vm_compute; discriminate.
  - cbn [vp_from vp_to]. intros p Hp.
    assert (p = 1) as -> by lia. reflexivity.
Defined.

(** ** Further properties of the tone mark and the romanization *)

Section MarkFacts.

Implicit Types (base pre post s : jsstring) (v c m tone d : Z).

(** With a tone from 1 to 4, either no letter can take the mark and the
    syllable is kept, or one letter is replaced by its marked form. *)
Lemma addToneMark_cases base tone :
  1 <= tone <= 4 ->
  ((forall u, In u markable_letters -> ~ In u base) /\
   addToneMark base tone = base)
  \/
  (exists pre v m post,
      base = pre ++ v :: post /\ In v markable_letters /\
      addToneMark base tone = pre ++ m :: post /\
      canonical_decomposition m = Some (v, combining_mark tone)).
Proof.
  intro Htone.
  pose (occurs := fun x => if in_dec Z.eq_dec x base then true else false).
  assert (Hocc : forall l, existsb occurs l = false ->
                           forall x, In x l -> ~ In x base).
  { intros l E x Hx Hin.
    assert (existsb occurs l = true) as E'; [|congruence].
    apply existsb_exists. exists x. split; [assumption|].
    unfold occurs. now destruct (in_dec Z.eq_dec x base). }
  assert (Hfound : forall l, existsb occurs l = true ->
                             exists x, In x l /\ In x base).
  { intros l E. apply existsb_exists in E. destruct E as (x & Hx & Hin).
    unfold occurs in Hin. destruct (in_dec Z.eq_dec x base); [|discriminate].
    now exists x. }
  destruct (existsb occurs priority_letters) eqn:E1.
  - right. apply Hfound in E1.
    destruct (first_occurring priority_letters base E1) as
        (before & v & after & Hsplit & Hbefore & Hv).
    destruct (leftmost_split v base Hv) as (pre & post & Heq & Hpre).
    assert (Hmark : In v markable_letters).
    { unfold markable_letters. apply in_or_app. left.
      rewrite Hsplit. apply in_elt. }
    destruct (marked_decomposition v tone Hmark Htone) as (m & Hm & _ & Hdec).
    exists pre, v, m, post. repeat split; try assumption.
    rewrite (addToneMark_priority base tone before v after pre post);
      try assumption.
    now rewrite Hm.
  - pose proof (Hocc _ E1) as Hnone.
    destruct (existsb occurs fallback_letters) eqn:E2.
    + right. apply Hfound in E2.
      destruct (rightmost_split fallback_letters base E2) as
          (pre & c & post & Heq & Hc & Hpost).
      assert (Hmark : In c markable_letters).
      { unfold markable_letters. apply in_or_app. now right. }
      destruct (marked_decomposition c tone Hmark Htone) as (m & Hm & _ & Hdec).
      exists pre, c, m, post. repeat split; try assumption.
      rewrite (addToneMark_fallback base tone pre c post); try assumption.
      now rewrite Hm.
    + left. pose proof (Hocc _ E2) as Hnone2.
      assert (Hno : forall u, In u markable_letters -> ~ In u base).
      { intros u Hu. unfold markable_letters in Hu. apply in_app_or in Hu.
        destruct Hu; [now apply Hnone|now apply Hnone2]. }
      split; [exact Hno|]. now apply addToneMark_no_vowel.
Qed.

Lemma assoc_absent {V : Type} (k : Z) (l : list (Z * V)) :
  Forall (fun kv => fst kv <> k) l -> assoc k l = None.
Proof.
  induction 1 as [|[k' v'] l Hk _ IH]; cbn [assoc]; [reflexivity|].
  cbn [fst] in Hk. destruct (Z.eqb_spec k k'); [congruence|assumption].
Qed.

(** The letters of a romanization carry no tone mark. *)
Lemma letter_unmarked c :
  is_pinyin_letter c = true -> canonical_decomposition c = None.
Proof.
  unfold is_pinyin_letter. rewrite !orb_true_iff, !andb_true_iff.
  rewrite !Z.leb_le, !Z.eqb_eq. intro H.
  apply assoc_absent. unfold decompositions.
  repeat (constructor; [cbn [fst]; lia|]). constructor.
Qed.

Lemma strip_marks_letters s :
  forallb is_pinyin_letter s = true -> strip_marks s = s.
Proof.
  induction s as [|c s IH]; cbn [forallb strip_marks map]; [reflexivity|].
  rewrite andb_true_iff. intros [Hc Hs].
  unfold base_letter. rewrite (letter_unmarked c Hc).
  f_equal. now apply IH.
Qed.

Lemma tone_of_text_letters pre s :
  forallb is_pinyin_letter pre = true ->
  tone_of_text (pre ++ s) = tone_of_text s.
Proof.
  induction pre as [|c pre IH]; cbn [forallb app tone_of_text]; [reflexivity|].
  rewrite andb_true_iff. intros [Hc Hs].
  rewrite (letter_unmarked c Hc). now apply IH.
Qed.

Lemma tone_of_combining_mark tone :
  1 <= tone <= 4 -> tone_of_mark (combining_mark tone) = tone.
Proof.
  intro H.
  assert (tone = 1 \/ tone = 2 \/ tone = 3 \/ tone = 4) as Ht by lia.
  destruct Ht as [ -> | [ -> | [ -> | -> ] ] ]; reflexivity.
Qed.

Lemma forallb_app_inv (p : Z -> bool) pre v post :
  forallb p (pre ++ v :: post) = true ->
  forallb p pre = true /\ p v = true /\ forallb p post = true.
Proof.
  rewrite forallb_app. cbn [forallb]. rewrite !andb_true_iff. tauto.
Qed.

End MarkFacts.

(** X5. [addToneMark] keeps the length of the syllable, whatever the tone:
    a mark replaces one code unit by one code unit. *)
Theorem addToneMark_keeps_length (base : jsstring) (tone : Z) :
  List.length (addToneMark base tone) = List.length base.
Proof.
  destruct (Z.le_gt_cases 1 tone) as [H1|H1];
    [destruct (Z.le_gt_cases tone 4) as [H4|H4]|].
  - destruct (addToneMark_cases base tone (conj H1 H4))
      as [(_ & ->)|(pre & v & m & post & -> & _ & -> & _)]; [reflexivity|].
    now rewrite !List.length_app.
  - now rewrite addToneMark_skip by lia.
  - now rewrite addToneMark_skip by lia.
Qed.

(** X6. The accented text can be read back. For a romanization made of
    letters, one of which can take the mark, followed by a digit from 1 to
    4: taking the marks off the accented text and appending the tone of
    the mark it carries gives the romanization again. *)
Theorem accented_reads_back (base : jsstring) (d : Z) (st : ToneColorSettings) :
  forallb is_pinyin_letter base = true ->
  (exists u, In u markable_letters /\ In u base) ->
  1 <= d <= 4 ->
  to_numeric (accented (getAccentedColoredPinyin (base ++ [digit_unit d]) st))
  = base ++ [digit_unit d].
Proof.
  intros Hl (u & Hu & Hin) Hd.
  assert (Hne : base <> []) by (intros ->; destruct Hin).
  rewrite getAccentedColoredPinyin_digit by (try assumption; lia).
  cbn [accented fst]. unfold to_numeric.
  destruct (addToneMark_cases base d Hd)
    as [(Hnone & _)|(pre & v & m & post & -> & Hv & -> & Hdec)].
  - exfalso. now apply (Hnone u).
  - destruct (forallb_app_inv _ _ _ _ Hl) as (Hpre & _ & Hpost).
    rewrite tone_of_text_letters by assumption.
    cbn [tone_of_text]. rewrite Hdec, tone_of_combining_mark by assumption.
    f_equal. unfold strip_marks. rewrite map_app. cbn [map].
    fold (strip_marks pre) (strip_marks post).
    rewrite !strip_marks_letters by assumption.
    unfold base_letter. now rewrite Hdec.
Qed.

Lemma accented_reads_back_witness :
  forallb is_pinyin_letter (js "lüe") = true /\
  (exists u, In u markable_letters /\ In u (js "lüe")) /\ 1 <= 4 <= 4 /\
  accented (getAccentedColoredPinyin (js "lüe4") DEFAULT_SETTINGS) = js "lüè" /\
  to_numeric (accented (getAccentedColoredPinyin (js "lüe" ++ [digit_unit 4])
                          DEFAULT_SETTINGS))
  = js "lüe" ++ [digit_unit 4].
Proof.
  assert (Hl : forallb is_pinyin_letter (js "lüe") = true) by reflexivity.
  assert (Hv : exists u, In u markable_letters /\ In u (js "lüe")).
  { exists 0x65. split; vm_compute; intuition. }
  assert (Hd : 1 <= 4 <= 4) by lia.
  split; [exact Hl|]. split; [exact Hv|]. split; [exact Hd|].
  split; [reflexivity|].
  exact (accented_reads_back (js "lüe") 4 DEFAULT_SETTINGS Hl Hv Hd).
Defined.

(** ** Properties of the settings objects *)

Section ObjectFacts.

Import PluginSettings.

Implicit Types (obj src target : object) (key k : jsstring) (v : jsstring).

Lemma string_eqb_true a b : string_eqb a b = true <-> a = b.
Proof.
  unfold string_eqb. destruct (list_eq_dec Z.eq_dec a b); split;
    congruence.
Qed.

Lemma string_eqb_refl a : string_eqb a a = true.
Proof. now apply string_eqb_true. Qed.

Lemma string_eqb_neq a b : a <> b -> string_eqb a b = false.
Proof.
  intro H. destruct (string_eqb a b) eqn:E; [|reflexivity].
  now apply string_eqb_true in E.
Qed.

Lemma property_set_same obj key v :
  property (set_property obj key v) key = Some v.
Proof.
  induction obj as [|[k0 v0] obj IH]; cbn [set_property property].
  - now rewrite string_eqb_refl.
  - destruct (string_eqb k0 key) eqn:E; cbn [property]; now rewrite E.
Qed.

Lemma property_set_other obj key k v :
  key <> k -> property (set_property obj key v) k = property obj k.
Proof.
  intro Hne. induction obj as [|[k0 v0] obj IH]; cbn [set_property property].
  - now rewrite string_eqb_neq.
  - destruct (string_eqb k0 key) eqn:E; cbn [property].
    + apply string_eqb_true in E. subst k0.
      now rewrite string_eqb_neq.
    + now rewrite IH.
Qed.

Lemma property_own_key src k v :
  property src k = Some v -> In k (own_keys src).
Proof.
  induction src as [|[k0 v0] src IH]; cbn [property own_keys map fst];
    [discriminate|].
  destruct (string_eqb k0 k) eqn:E.
  - apply string_eqb_true in E. now left.
  - intro H. right. now apply IH.
Qed.

(** After the copy of the keys [ks] of a source, a property is the one of
    the source when its key was copied, and the one of the target
    otherwise. *)
Lemma property_copied src (ks : list jsstring) target k :
  property
    (fold_left (fun t key => match property src key with
                             | Some v => set_property t key v
                             | None => t
                             end) ks target) k
  = match property src k with
    | Some v => if in_dec (list_eq_dec Z.eq_dec) k ks then Some v
                else property target k
    | None => property target k
    end.
Proof.
  revert target. induction ks as [|a ks IH]; intro target; cbn [fold_left].
  - now destruct (property src k).
  - rewrite IH. destruct (property src k) as [v|] eqn:Hk.
    + destruct (in_dec (list_eq_dec Z.eq_dec) k ks) as [Hin|Hnin].
      * destruct (in_dec (list_eq_dec Z.eq_dec) k (a :: ks)) as [|Hn];
          [reflexivity|]. exfalso. apply Hn. now right.
      * destruct (list_eq_dec Z.eq_dec a k) as [->|Hne].
        -- rewrite Hk, property_set_same.
           destruct (in_dec (list_eq_dec Z.eq_dec) k (k :: ks)) as [|Hn];
             [reflexivity|]. exfalso. apply Hn. now left.
        -- destruct (in_dec (list_eq_dec Z.eq_dec) k (a :: ks)) as [[H|H]|_];
             [contradiction|contradiction|].
           destruct (property src a); [now apply property_set_other|reflexivity].
    + destruct (list_eq_dec Z.eq_dec a k) as [->|Hne].
      * now rewrite Hk.
      * destruct (property src a); [now apply property_set_other|reflexivity].
Qed.

(** [Object.assign] with one source: the source wins, key by key. *)
Lemma property_assign_from target src k :
  property (assign_from target (Some src)) k
  = match property src k with
    | Some v => Some v
    | None => property target k
    end.
Proof.
  unfold assign_from. rewrite property_copied.
  destruct (property src k) as [v|] eqn:Hk; [|reflexivity].
  destruct (in_dec (list_eq_dec Z.eq_dec) k (own_keys src)) as [|Hn];
    [reflexivity|].
  exfalso. apply Hn. eapply property_own_key. eassumption.
Qed.

Lemma default_property (k : tone_key) :
  property (to_object DEFAULT_SETTINGS) (key_name k)
  = Some (tone k DEFAULT_SETTINGS).
Proof. destruct k; reflexivity. Qed.

(** The object built by [loadSettings] holds the five keys, each with the
    stored color when there is one and the default color otherwise. *)
Lemma loaded_property (stored : option object) (k : tone_key) :
  property (Object_assign [] [Some (to_object DEFAULT_SETTINGS); stored])
           (key_name k)
  = Some (merged stored k).
Proof.
  unfold Object_assign. cbn [fold_left]. unfold merged.
  destruct stored as [obj|].
  - rewrite property_assign_from.
    destruct (property obj (key_name k)); [reflexivity|].
    rewrite property_assign_from. now rewrite default_property.
  - change (assign_from (assign_from [] (Some (to_object DEFAULT_SETTINGS))) None)
      with (assign_from [] (Some (to_object DEFAULT_SETTINGS))).
    rewrite property_assign_from. now rewrite default_property.
Qed.

Lemma loaded_settings (stored : option object) :
  of_object (Object_assign [] [Some (to_object DEFAULT_SETTINGS); stored])
  = merged_settings stored.
Proof.
  unfold of_object, read, merged_settings.
  pose proof (loaded_property stored Tone1) as H1.
  pose proof (loaded_property stored Tone2) as H2.
  pose proof (loaded_property stored Tone3) as H3.
  pose proof (loaded_property stored Tone4) as H4.
  pose proof (loaded_property stored Tone0) as H0.
  cbn [key_name] in H1, H2, H3, H4, H0.
  now rewrite H1, H2, H3, H4, H0.
Qed.

Lemma key_name_injective (k k' : tone_key) : key_name k = key_name k' -> k = k'.
Proof. destruct k, k'; intro H; try reflexivity; vm_compute in H; discriminate. Qed.

Lemma of_object_set obj (k : tone_key) v :
  of_object (set_property obj (key_name k) v) = with_tone k v (of_object obj).
Proof.
  unfold of_object, with_tone, read.
  destruct k; cbn [key_name];
    rewrite property_set_same;
    rewrite !property_set_other by (vm_compute; discriminate);
    reflexivity.
Qed.

Lemma set_keeps_keys obj (k k' : tone_key) v :
  property obj (key_name k') <> None ->
  property (set_property obj (key_name k) v) (key_name k') <> None.
Proof.
  intro H. destruct (list_eq_dec Z.eq_dec (key_name k) (key_name k')) as [E|E].
  - rewrite E, property_set_same. discriminate.
  - now rewrite property_set_other.
Qed.

Lemma reload_complete obj :
  (forall k : tone_key, property obj (key_name k) <> None) ->
  merged_settings (Some obj) = of_object obj.
Proof.
  intro H. unfold merged_settings, merged, of_object, read.
  pose proof (H Tone1). pose proof (H Tone2). pose proof (H Tone3).
  pose proof (H Tone4). pose proof (H Tone0). cbn [key_name] in *.
  destruct (property obj (js "tone1")); [|contradiction].
  destruct (property obj (js "tone2")); [|contradiction].
  destruct (property obj (js "tone3")); [|contradiction].
  destruct (property obj (js "tone4")); [|contradiction].
  destruct (property obj (js "tone0")); [|contradiction].
  reflexivity.
Qed.

Lemma nth_error_store (h : list object) a obj obj0 :
  nth_error h a = Some obj0 -> nth_error (store h a obj) a = Some obj.
Proof.
  revert a. induction h as [|o h IH]; intros [|a]; cbn [nth_error store];
    try discriminate; [reflexivity|apply IH].
Qed.

Lemma loaded_onload (stored : option object) :
  loaded (onload (fresh stored)) (merged_settings stored).
Proof.
  exists 0%nat, (Object_assign [] [Some (to_object DEFAULT_SETTINGS); stored]).
  unfold onload, loadSettings, fresh.
  cbn [heap this_settings data extension List.length app nth_error].
  split; [reflexivity|]. split; [reflexivity|]. split; [reflexivity|].
  split; [|split; [apply loaded_settings|reflexivity]].
  intros k. rewrite loaded_property. discriminate.
Qed.

Lemma loaded_onChange p st (k : tone_key) v :
  loaded p st ->
  exists p', onChange k v p = Some p' /\ loaded p' (with_tone k v st).
Proof.
  intros (a & obj & Hthis & Hext & Hnth & Hkeys & Hobj & _).
  unfold onChange. rewrite Hthis, Hnth. unfold saveSettings, deref.
  cbn [heap this_settings data extension].
  rewrite (nth_error_store _ _ _ _ Hnth).
  eexists; split; [reflexivity|].
  exists a, (set_property obj (key_name k) v).
  cbn [heap this_settings data extension].
  assert (Hk' : forall k' : tone_key,
             property (set_property obj (key_name k) v) (key_name k') <> None)
    by (intro k'; now apply set_keeps_keys).
  repeat split; try assumption.
  - eapply nth_error_store; eassumption.
  - now rewrite of_object_set, Hobj.
  - now rewrite reload_complete, of_object_set, Hobj.
Qed.

Lemma loaded_changes cs p st :
  loaded p st ->
  exists p', changes cs p = Some p' /\ loaded p' (edited cs st).
Proof.
  revert p st. induction cs as [|[k v] cs IH]; intros p st H; cbn [changes].
  - now exists p.
  - destruct (loaded_onChange p st k v H) as (p1 & -> & H1).
    destruct (IH p1 _ H1) as (p' & Hp' & H'). now exists p'.
Qed.

Lemma loaded_pass_settings p st :
  loaded p st -> pass_settings p = Some st.
Proof.
  intros (a & obj & _ & Hext & Hnth & _ & Hobj & _).
  unfold pass_settings, deref. rewrite Hext, Hnth. cbn. now rewrite Hobj.
Qed.

End ObjectFacts.

(** ** What the decorations carry *)

Lemma color_configured (numericPinyin : jsstring) (st : ToneColorSettings) :
  In (color (getAccentedColoredPinyin numericPinyin st)) (configured_colors st).
Proof.
  unfold getAccentedColoredPinyin, configured_colors.
  destruct (match_pinyin numericPinyin) as [[base toneStr]|]; cbn [color snd].
  - set (tone := match toneStr with
                 | Some ((_ :: _) as digits) => parseInt10 digits
                 | _ => 0
                 end).
    destruct (tone =? 1); [now left|].
    destruct (tone =? 2); [right; now left|].
    destruct (tone =? 3); [right; right; now left|].
    destruct (tone =? 4); [right; right; right; now left|].
    right; right; right; right; now left.
  - right; right; right; right; now left.
Qed.


(** X7. Every decoration of a completed pass is styled [color:c;] where
    [c] is one of the five colors of the settings at the time of the
    pass: no other color is ever produced. *)
Theorem decorations_styled_with_configured_colors
    (pinyin : jsstring -> list jsstring) (w : World) (ds : DecorationSet) :
  result (computeDecorations pinyin w) = Normal ds ->
  Forall (fun d => exists c,
              In c (configured_colors (settings w)) /\
              style (value d) = js "color:" ++ c ++ js ";") ds.
Proof.
  intro Hres. pose proof (computeDecorations_spec pinyin w) as H.
  rewrite Hres in H. destruct H as (_ & Hann).
  eapply Forall_impl; [|exact Hann].
  intros d (char & _ & _ & _ & ->).
  eexists. split; [apply color_configured|reflexivity].
Qed.

Lemma decorations_styled_with_configured_colors_witness :
  result (computeDecorations sample_pinyin (sample_world "好的" 0 2))
  = Normal [ {| r_from := 0; r_to := 1;
                value := {| style := js "color:black;"; title := js "hǎo" |} |};
             {| r_from := 1; r_to := 2;
                value := {| style := js "color:gray;"; title := js "de" |} |} ]
  /\
  Forall (fun d => exists c,
              In c (configured_colors DEFAULT_SETTINGS) /\
              style (value d) = js "color:" ++ c ++ js ";")
         [ {| r_from := 0; r_to := 1;
              value := {| style := js "color:black;"; title := js "hǎo" |} |};
           {| r_from := 1; r_to := 2;
              value := {| style := js "color:gray;"; title := js "de" |} |} ].
Proof.
  assert (H : result (computeDecorations sample_pinyin (sample_world "好的" 0 2))
              = Normal [ {| r_from := 0; r_to := 1;
                            value := {| style := js "color:black;";
                                        title := js "hǎo" |} |};
                         {| r_from := 1; r_to := 2;
                            value := {| style := js "color:gray;";
                                        title := js "de" |} |} ])
    by reflexivity.
  split; [exact H|].
  exact (decorations_styled_with_configured_colors sample_pinyin
           (sample_world "好的" 0 2) _ H).
Defined.



(** X9. From the reading to the decoration. When the first reading that
    the romanizer gives for a decorated character is made of letters
    followed by a digit [n], the title of the decoration is the letters
    with the mark of tone [n] and its style is the color of tone [n]. *)
Theorem decoration_shows_marked_reading
    (pinyin : jsstring -> list jsstring) (w : World) (ds : DecorationSet) :
  result (computeDecorations pinyin w) = Normal ds ->
  Forall (fun d => forall char base n rest,
              at_index (text_of w) (r_from d) = Some char ->
              pinyin char = (base ++ [digit_unit n]) :: rest ->
              base <> [] -> forallb is_pinyin_letter base = true ->
              0 <= n <= 9 ->
              value d = {| style := js "color:" ++ colorFor n (settings w) ++ js ";";
                           title := addToneMark base n |}) ds.
Proof.
  intro Hres. pose proof (computeDecorations_spec pinyin w) as H.
  rewrite Hres in H. destruct H as (_ & Hann).
  eapply Forall_impl; [|exact Hann].
  intros d (char & Hat & _ & _ & ->) char' base n rest Hat' Hpy Hne Hl Hn.
  rewrite Hat in Hat'. injection Hat' as <-.
  unfold decoration_for. rewrite Hpy.
  assert (Hfirst : first_or_empty ((base ++ [digit_unit n]) :: rest)
                   = base ++ [digit_unit n]).
  { unfold first_or_empty. destruct (base ++ [digit_unit n]) eqn:E;
      [now apply app_eq_nil in E|reflexivity]. }
  rewrite Hfirst, getAccentedColoredPinyin_digit by assumption.
  reflexivity.
Qed.

Lemma decoration_shows_marked_reading_witness :
  result (computeDecorations sample_pinyin (sample_world "中" 0 1))
  = Normal [ {| r_from := 0; r_to := 1;
                value := {| style := js "color:blue;"; title := js "zhōng" |} |} ]
  /\ {| style := js "color:blue;"; title := js "zhōng" |}
     = {| style := js "color:" ++ colorFor 1 DEFAULT_SETTINGS ++ js ";";
          title := addToneMark (js "zhong") 1 |}.
Proof.
  assert (H : result (computeDecorations sample_pinyin (sample_world "中" 0 1))
              = Normal [ {| r_from := 0; r_to := 1;
                            value := {| style := js "color:blue;";
                                        title := js "zhōng" |} |} ])
    by reflexivity.
  split; [exact H|].
  refine (Forall_inv (decoration_shows_marked_reading sample_pinyin
                        (sample_world "中" 0 1) _ H)
            (js "中") (js "zhong") 1 [] _ _ _ _ _).
  - reflexivity.
  - reflexivity.
  - discriminate.
  - reflexivity.
  - lia.
Defined.

(** X10. When the viewport of a changed view leaves the text, [update]
    raises and the plugin value keeps the decorations it had: the world is
    left exactly as it was. *)
Theorem update_keeps_decorations_on_error
    (pinyin : jsstring -> list jsstring) (u : ViewUpdate) (w : World) :
  well_formed (text_of w) = true ->
  docChanged u || viewportChanged u = true ->
  from_of w < to_of w ->
  from_of w < 0 \/ JS.length (text_of w) < to_of w ->
  update pinyin u w = (TypeError, w).
Proof.
  intros Hwf Hflag Hlt Hout. unfold update. rewrite Hflag.
  unfold bind. rewrite computeDecorations_run.
  now rewrite scan_raises by (try assumption; lia).
Qed.

Lemma update_keeps_decorations_on_error_witness :
  update sample_pinyin {| docChanged := true; viewportChanged := false |}
         {| view := {| doc := js "中文";
                       viewport := {| vp_from := 0; vp_to := 5 |} |};
            settings := DEFAULT_SETTINGS;
            decorations := [ {| r_from := 0; r_to := 1;
                                value := {| style := js "color:blue;";
                                            title := js "zhōng" |} |} ] |}
  = (TypeError,
     {| view := {| doc := js "中文";
                   viewport := {| vp_from := 0; vp_to := 5 |} |};
        settings := DEFAULT_SETTINGS;
        decorations := [ {| r_from := 0; r_to := 1;
                            value := {| style := js "color:blue;";
                                        title := js "zhōng" |} |} ] |}).
Proof.
  apply update_keeps_decorations_on_error.
  - reflexivity.
  - reflexivity.
  - vm_compute. reflexivity.
  - right. vm_compute. reflexivity.
Defined.

(** ** The settings, loaded, changed and saved *)



(** X12. The changes made in the settings tab reach the passes. After
    [onload] and any sequence of changes, no handler has failed, the
    editor extension and the plugin still hold the same settings object,
    and the settings a pass reads are the loaded ones with the changes
    applied in order. *)
Theorem tab_changes_reach_the_pass (stored : option PluginSettings.object)
    (cs : list (PluginSettings.tone_key * jsstring)) :
  exists p,
    PluginSettings.changes cs (PluginSettings.onload (PluginSettings.fresh stored))
    = Some p
    /\ PluginSettings.extension p = PluginSettings.this_settings p
    /\ PluginSettings.pass_settings p
       = Some (PluginSettings.edited cs (PluginSettings.merged_settings stored)).
Proof.
  destruct (loaded_changes cs _ _ (loaded_onload stored)) as (p & Hp & Hl).
  exists p. split; [exact Hp|]. split.
  - destruct Hl as (a & obj & -> & -> & _). reflexivity.
  - now apply loaded_pass_settings.
Qed.

(** X13. The settings survive a restart. After [onload] and any sequence
    of changes, loading a fresh plugin from the data file as it was left
    gives a pass the same settings as the running plugin has. *)
Theorem saved_settings_survive_restart (stored : option PluginSettings.object)
    (cs : list (PluginSettings.tone_key * jsstring)) :
  exists p,
    PluginSettings.changes cs (PluginSettings.onload (PluginSettings.fresh stored))
    = Some p
    /\ PluginSettings.pass_settings
         (PluginSettings.onload (PluginSettings.fresh (PluginSettings.data p)))
       = PluginSettings.pass_settings p.
Proof.
  destruct (loaded_changes cs _ _ (loaded_onload stored)) as (p & Hp & Hl).
  exists p. split; [exact Hp|].
  rewrite (loaded_pass_settings _ _ Hl).
  rewrite (loaded_pass_settings _ _ (loaded_onload (PluginSettings.data p))).
  destruct Hl as (a & obj & _ & _ & _ & _ & _ & ->). reflexivity.
Qed.
